(** * Vixen beat-aligned gap-fill schedulers

    A shallow embedding of the scheduling core of three scripts of the
    repository:

    - [add_beatnet_effects.py]     (module [Beatnet]):   beat-quantized,
      two salience tiers, the occupied list grows with every placement;
    - [add_waveform_effects.py]    (module [Waveform]):  beat-quantized,
      three salience tiers, the occupied list is read-only;
    - [add_beat_synced_effects.py] (module [BeatSynced]): free-running
      durations taken from the free span.

    Modelling conventions.

    - Times and durations are Python floats in the scripts.  In the modules
      [Beatnet], [Waveform] and [BeatSynced] they are embedded as rationals
      ([Q]): comparisons are the exact ones, [+] and [-] do not round, and
      a decimal literal is the rational it denotes ([0.3] is [3#10]).  The
      theorems about the passes state comparisons between values the
      scripts compute.  Auxiliary lemmas about the exact values (that the
      exact free span exceeds 0.2 s, for instance) serve to derive them.
    - Module [Float64] repeats the arithmetic of the scripts in IEEE 754
      binary64, the format of a Python float, for the functions whose
      computed values exact arithmetic does not reproduce.  It is used to
      evaluate the scripts where rounding decides the outcome.
    - A string is a sequence of characters with code points below 256.
    - [random.choice], [random.sample] and [uuid.uuid4] read hidden state.
      That state is made explicit as two tapes of natural numbers: [rng]
      for the [random] module and [entropy] for the operating-system
      randomness behind [uuid4].
    - A Python [IndexError] is the constructor [Raise_IndexError] of [py].
    - The [while] loops are iterated with a fuel counter, one unit per
      iteration; [None] means the fuel ran out.  The beat-quantized passes
      never run out.  The free-running pass moves on only when the duration
      it places is positive: with exact values and well-formed occupied
      intervals it is, in binary64 it need not be ([Float64.body]).
    - The XML payload construction ([make_*_data]) is string formatting of
      the record fields kept here and is not embedded. *)

From Stdlib Require Import String Ascii.
From Stdlib Require Import QArith Qminmax Qround Qabs Lqa Lia List Bool Arith ZArith.
From Stdlib Require Import Permutation.
From Stdlib Require SpecFloat.
Import ListNotations.
Open Scope Q_scope.

Set Implicit Arguments.

(** ** Python values and outcomes *)

Inductive py (A : Type) : Type :=
| Ret (a : A)
| Raise_IndexError.
Arguments Ret {A} a.
Arguments Raise_IndexError {A}.

Definition interval : Type := (Q * Q)%type.

Definition Qlt_bool (x y : Q) : bool := negb (Qle_bool y x).

(** Python's two-argument [min]: the first argument unless the second is
    strictly smaller. *)
Definition pymin (a b : Q) : Q := if Qlt_bool b a then b else a.

(** [x in s] for a set of floats: equality of values. *)
Definition mem (x : Q) (s : list Q) : bool := existsb (Qeq_bool x) s.

(** Tuple order of Python on pairs of floats. *)
Definition tuple_lt (a b : interval) : bool :=
  Qlt_bool (fst a) (fst b) || (Qeq_bool (fst a) (fst b) && Qlt_bool (snd a) (snd b)).

(** [list.sort()] on a list of pairs: a stable sort. *)
Fixpoint insert_sorted (x : interval) (l : list interval) : list interval :=
  match l with
  | [] => [x]
  | y :: r => if tuple_lt x y then x :: y :: r else y :: insert_sorted x r
  end.

Definition sort (l : list interval) : list interval :=
  fold_left (fun acc x => insert_sorted x acc) l [].

(** ** Randomness made explicit *)

Record Tape : Type := mkTape { cells : nat -> nat; pos : nat }.

Definition draw (t : Tape) : nat * Tape :=
  (cells t (pos t), mkTape (cells t) (S (pos t))).

(** [random.choice(seq)] on the non-empty literal [x :: xs]. *)
Definition choice (A : Type) (rng : Tape) (x : A) (xs : list A) : A * Tape :=
  let (n, rng') := draw rng in
  (nth (n mod S (length xs)) (x :: xs) x, rng').

Fixpoint remove_nth (A : Type) (n : nat) (l : list A) : list A :=
  match n, l with
  | _, [] => []
  | O, _ :: r => r
  | S m, y :: r => y :: remove_nth m r
  end.

(** [random.sample(population, k)]: [k] draws without replacement. *)
Fixpoint sample (A : Type) (rng : Tape) (population : list A) (k : nat)
  : list A * Tape :=
  match k, population with
  | O, _ => ([], rng)
  | _, [] => ([], rng)
  | S k', x :: xs =>
      let (n, rng1) := draw rng in
      let j := (n mod S (length xs))%nat in
      let (rest, rng2) := sample rng1 (remove_nth j (x :: xs)) k' in
      (nth j (x :: xs) x :: rest, rng2)
  end.

(** [uuid.uuid4()]: a fresh identifier read from the entropy tape. *)
Definition uuid4 (entropy : Tape) : nat * Tape := draw entropy.

(** ** Palette and effect kinds *)

Inductive Color : Type :=
| Red | Blue | Green | Yellow | Purple | Orange | White | LightBlue.

Definition COLORS : list Color :=
  [Red; Blue; Green; Yellow; Purple; Orange; White; LightBlue].

Inductive Kind : Type := Pulse | Twinkle | Butterfly | Spiral | Wipe.

(** The kind-specific parameters drawn after the kind is chosen. *)
Inductive Variant : Type :=
| NoVariant
| ButterflyType (n : nat)
| SpiralColors (cs : list Color)
| WipeDirection (n : nat).

(** ** [parse_duration] *)

Definition is_digit (c : ascii) : bool :=
  let n := nat_of_ascii c in ((48 <=? n) && (n <=? 57))%nat.

(** Greedy [\d*]: the longest prefix of digits and what follows it. *)
Fixpoint take_digits (s : list ascii) : list ascii * list ascii :=
  match s with
  | c :: r =>
      if is_digit c then let (ds, r') := take_digits r in (c :: ds, r')
      else ([], s)
  | [] => ([], [])
  end.

Definition digit_val (c : ascii) : Z := Z.of_nat (nat_of_ascii c - 48).

(** [int(digits)] *)
Definition int_of (ds : list ascii) : Z :=
  fold_left (fun acc c => (10 * acc + digit_val c)%Z) ds 0%Z.

(** [float("ds.fs")], exactly. *)
Definition float_of (ds fs : list ascii) : Q :=
  inject_Z (int_of ds) + Qmake (int_of fs) (Pos.pow 10 (Pos.of_nat (length fs))).

(** [\d+(?:\.\d+)?S] at the head of [s]: the integer and the fractional
    digits of group 2.  Backtracking cannot help here: after the longest run
    of digits a shorter run is followed by a digit, never by [.] or [S]. *)
Definition match_secs (s : list ascii) : option (list ascii * list ascii) :=
  let (ds, r) := take_digits s in
  match ds with
  | [] => None
  | _ :: _ =>
      match r with
      | "."%char :: r' =>
          let (fs, r'') := take_digits r' in
          match fs, r'' with
          | _ :: _, "S"%char :: _ => Some (ds, fs)
          | _, _ => None
          end
      | "S"%char :: _ => Some (ds, [])
      | _ => None
      end
  end.

(** [(\d+)M] at the head of [s], then group 2. *)
Definition match_mins_secs (s : list ascii)
  : option (list ascii * (list ascii * list ascii)) :=
  let (ms, r) := take_digits s in
  match ms, r with
  | _ :: _, "M"%char :: r' =>
      match match_secs r' with
      | Some g2 => Some (ms, g2)
      | None => None
      end
  | _, _ => None
  end.

(** [re.match(r'PT(?:(\d+)M)?(\d+(?:\.\d+)?)S', dur_str)]: anchored at the
    start only; the optional minutes group is tried first. *)
Definition re_match (dur_str : string)
  : option (option (list ascii) * (list ascii * list ascii)) :=
  match list_ascii_of_string dur_str with
  | "P"%char :: "T"%char :: r =>
      match match_mins_secs r with
      | Some (ms, g2) => Some (Some ms, g2)
      | None =>
          match match_secs r with
          | Some g2 => Some (None, g2)
          | None => None
          end
      end
  | _ => None
  end.

(** The value [parse_duration] returns, as the exact number the matched
    digits denote.  The script converts with [int] and [float] and adds in
    binary64; on a digit run of several hundred characters [int] or the
    conversion of [mins * 60] to a float raises ([ValueError],
    [OverflowError]).  Statements about the decoded value are therefore
    made for [plain] strings, on which neither conversion can raise. *)
Definition parse_duration (dur_str : string) : Q :=
  match re_match dur_str with
  | Some (g1, (ds, fs)) =>
      let mins := match g1 with Some ms => int_of ms | None => 0%Z end in
      let secs := float_of ds fs in
      inject_Z (mins * 60) + secs
  | None => 0
  end.

(** The list of occupied intervals the scripts build from the
    [(StartTime, TimeSpan)] matches of the timeline file. *)
Definition load_existing (matches : list (string * string)) : list interval :=
  sort (map (fun m : string * string =>
               let start_sec := parse_duration (fst m) in
               let dur_sec := parse_duration (snd m) in
               (start_sec, start_sec + dur_sec)) matches).

(** ** [seconds_to_duration]

    The function formats with [f"{seconds:.7f}"] and [f"{mins}"].  The
    format [.7f] prints the value rounded to the nearest multiple of 1e-7,
    ties to the even neighbour, as an optional minus sign, the decimal
    integer part, a point and seven fractional digits. *)

Definition digit_char (k : Z) : ascii := ascii_of_nat (48 + Z.to_nat k).

(** The decimal digits of [n >= 0] in front of [acc], most significant
    first; [fuel] bounds the number of digits. *)
Fixpoint digits_fuel (fuel : nat) (n : Z) (acc : list ascii) : list ascii :=
  match fuel with
  | O => acc
  | S fuel' =>
      let acc' := digit_char (n mod 10) :: acc in
      if (n <? 10)%Z then acc' else digits_fuel fuel' (n / 10) acc'
  end.

(** [str(n)] for an integer [n >= 0]: no more decimal than binary digits. *)
Definition str_int (n : Z) : list ascii :=
  digits_fuel (S (Z.to_nat (Z.log2 n))) n [].

(** The last [width] decimal digits of [n], zero padded. *)
Fixpoint fixed_digits (width : nat) (n : Z) : list ascii :=
  match width with
  | O => []
  | S w => fixed_digits w (n / 10) ++ [digit_char (n mod 10)]
  end.

(** The integer nearest to [y >= 0], ties to even. *)
Definition round_half_even (y : Q) : Z :=
  let f := Qfloor y in
  let r := y - inject_Z f in
  if Qlt_bool r (1 # 2) then f
  else if Qlt_bool (1 # 2) r then (f + 1)%Z
  else if Z.even f then f else (f + 1)%Z.

(** [f"{x:.7f}"] *)
Definition format_7f (x : Q) : list ascii :=
  let n := round_half_even (Qabs x * 10000000) in
  (if Qlt_bool x 0 then ["-"%char] else [])
  ++ str_int (n / 10000000) ++ "."%char :: fixed_digits 7 (n mod 10000000).

Definition seconds_to_duration (seconds : Q) : string :=
  if Qlt_bool seconds 60 then
    string_of_list_ascii
      ("P"%char :: "T"%char :: format_7f seconds ++ ["S"%char])
  else
    let mins := Qfloor (seconds / 60) in
    let secs := seconds - inject_Z (60 * mins) in
    string_of_list_ascii
      ("P"%char :: "T"%char :: str_int mins
         ++ "M"%char :: format_7f secs ++ ["S"%char]).

(** ** [is_gap] and the end-point scan (the same text in the scripts) *)

Fixpoint is_gap (time_point : Q) (existing_effects : list interval)
  (threshold : Q) : bool :=
  match existing_effects with
  | [] => true
  | (start, end_) :: rest =>
      if Qle_bool (start - threshold) time_point
         && Qle_bool time_point (end_ + threshold)
      then false
      else is_gap time_point rest threshold
  end.

(** The inner loop of [find_end_beat]: [overlap] is set when the end point
    lies inside an occupied interval. *)
Fixpoint overlaps (end_time : Q) (existing_effects : list interval) : bool :=
  match existing_effects with
  | [] => false
  | (ex_start, ex_end) :: rest =>
      if Qle_bool ex_start end_time && Qle_bool end_time ex_end
      then true
      else overlaps end_time rest
  end.

(** The [for i in range(...)] loop of [find_end_beat] over the indices
    [idxs]: [continue] below the minimum, [break] above the maximum, the
    first end point outside every occupied interval is returned. *)
Fixpoint scan_end_beats (start_time : Q) (beats : list Q)
  (existing_effects : list interval) (min_dur max_dur : Q)
  (idxs : list nat) : py (option (nat * Q * Q)) :=
  match idxs with
  | [] => Ret None
  | i :: rest =>
      match nth_error beats i with
      | None => Raise_IndexError
      | Some end_time =>
          let duration := end_time - start_time in
          if Qlt_bool duration min_dur then
            scan_end_beats start_time beats existing_effects min_dur max_dur rest
          else if Qlt_bool max_dur duration then Ret None
          else if overlaps end_time existing_effects then
            scan_end_beats start_time beats existing_effects min_dur max_dur rest
          else Ret (Some (i, end_time, duration))
      end
  end.

(** [range(a, b)] *)
Definition range (a b : nat) : list nat := seq a (b - a).

(** The candidate indices of [find_end_beat]. *)
Definition lookahead (start_beat_idx : nat) (beats : list Q) : list nat :=
  range (start_beat_idx + 1) (Nat.min (start_beat_idx + 20) (length beats)).


(** ** Emitted effects of the two scripts that write nodes directly

    What one appended [(data, node)] pair records: the instance id, the
    start time and time span handed to [seconds_to_duration] for the node,
    the type id, the value of the variable [color] when the effect is
    created and the kind-specific random parameters. *)
Record Effect : Type := mkEffect {
  effect_id : nat;
  start_time : Q;
  time_span : Q;
  effect_type : Kind;
  color : Color;
  variant : Variant
}.

(** [start_str] and [dur_str], the two texts [make_effect_node] writes
    into the node. *)
Definition node_times (e : Effect) : string * string :=
  (seconds_to_duration (start_time e), seconds_to_duration (time_span e)).

(** The colours handed to [make_*_data]: the variable [color], except for
    a Spiral, whose data is made from the three sampled colours. *)
Definition data_colors (e : Effect) : list Color :=
  match effect_type e with
  | Spiral =>
      match variant e with
      | SpiralColors cs => cs
      | _ => []
      end
  | _ => [color e]
  end.

(** ** [add_beatnet_effects.py] *)

Module Beatnet.

(** The variables the main loop reads and writes. *)
Record state : Type := mkState {
  i : nat;
  color_idx : nat;
  existing_effects : list interval;
  new_effects : list Effect;
  rng : Tape;
  entropy : Tape
}.

Definition find_end_beat (start_beat_idx : nat) (beats : list Q)
  (existing : list interval) (min_duration max_duration : Q)
  : py (option (nat * Q * Q)) :=
  match nth_error beats start_beat_idx with
  | None => Raise_IndexError
  | Some start_time =>
      scan_end_beats start_time beats existing min_duration max_duration
        (lookahead start_beat_idx beats)
  end.

(** The duration window and the eligible kinds of a start beat. *)
Definition tier (is_downbeat : bool) : Q * Q * (Kind * list Kind) :=
  if is_downbeat
  then (10, 2, (Spiral, [Butterfly; Twinkle; Wipe]))
  else (2, 1 # 2, (Pulse, [])).

(** The [if effect_type == ...] chain: the random parameters of a kind. *)
Definition draw_variant (effect_type : Kind) (rng : Tape) : Variant * Tape :=
  match effect_type with
  | Pulse | Twinkle => (NoVariant, rng)
  | Butterfly =>
      let (btype, rng') := choice rng 1%nat [2; 3; 4; 5]%nat in
      (ButterflyType btype, rng')
  | Spiral =>
      let (cs, rng') := sample rng COLORS 3 in (SpiralColors cs, rng')
  | Wipe =>
      let (direction, rng') := choice rng 0%nat [1; 2; 3]%nat in
      (WipeDirection direction, rng')
  end.

Section Pass.
Variable beats : list Q.
Variable downbeats : list Q.

(** One iteration of [while i < len(beats)]. *)
Definition body (st : state) : py state :=
  match nth_error beats (i st) with
  | None => Raise_IndexError
  | Some beat_time =>
      if negb (is_gap beat_time (existing_effects st) (3 # 10)) then
        Ret (mkState (i st + 1) (color_idx st) (existing_effects st)
               (new_effects st) (rng st) (entropy st))
      else
        let is_downbeat := mem beat_time downbeats in
        let '(max_dur, min_dur, (c0, cs)) := tier is_downbeat in
        match find_end_beat (i st) beats (existing_effects st) min_dur max_dur with
        | Raise_IndexError => Raise_IndexError
        | Ret None =>
            Ret (mkState (i st + 1) (color_idx st) (existing_effects st)
                   (new_effects st) (rng st) (entropy st))
        | Ret (Some (end_idx, end_time, duration)) =>
            let color := nth (color_idx st mod length COLORS) COLORS Red in
            let (effect_id, entropy') := uuid4 (entropy st) in
            let (effect_type, rng1) := choice (rng st) c0 cs in
            let (v, rng2) := draw_variant effect_type rng1 in
            Ret (mkState (end_idx + 1) (color_idx st + 1)
                   (sort (existing_effects st ++ [(beat_time, end_time)]))
                   (new_effects st
                      ++ [mkEffect effect_id beat_time duration effect_type color v])
                   rng2 entropy')
        end
  end.

Fixpoint loop (fuel : nat) (st : state) : option (py state) :=
  if (length beats <=? i st)%nat then Some (Ret st)
  else
    match fuel with
    | O => None
    | S fuel' =>
        match body st with
        | Ret st' => loop fuel' st'
        | Raise_IndexError => Some Raise_IndexError
        end
    end.

Definition init (existing : list interval) (rng entropy : Tape) : state :=
  mkState 0 0 existing [] rng entropy.

(** The whole pass, with one unit of fuel per beat. *)
Definition schedule (existing : list interval) (rng entropy : Tape)
  : option (py state) :=
  loop (length beats) (init existing rng entropy).

End Pass.

End Beatnet.

(** ** [add_waveform_effects.py] *)

Module Waveform.

(** One entry of [effects_to_add]. *)
Record Planned : Type := mkPlanned {
  start_time : Q;
  end_time : Q;
  duration : Q;
  effect_type : Kind;
  color : Color;
  is_downbeat : bool;
  is_strong : bool
}.

Record state : Type := mkState {
  beat_idx : nat;
  effects_to_add : list Planned;
  rng : Tape
}.

(** The duration window [find_end_beat] derives from the beat type. *)
Definition window (is_downbeat is_strong : bool) (min_duration max_duration : Q)
  : Q * Q :=
  if is_downbeat then (1, pymin max_duration 8)
  else if is_strong then (7 # 10, pymin max_duration 4)
  else (min_duration, pymin max_duration 2).

Definition find_end_beat (start_beat_idx : nat) (beats : list Q)
  (existing : list interval) (is_downbeat is_strong : bool)
  (min_duration max_duration : Q) : py (option (nat * Q * Q)) :=
  match nth_error beats start_beat_idx with
  | None => Raise_IndexError
  | Some start_time =>
      let (min_dur, max_dur) :=
        window is_downbeat is_strong min_duration max_duration in
      scan_end_beats start_time beats existing min_dur max_dur
        (lookahead start_beat_idx beats)
  end.

(** "Decide effect type based on beat type and duration". *)
Definition choose_type (is_downbeat is_strong : bool) (duration : Q)
  (rng : Tape) : Kind * Tape :=
  if is_downbeat && Qle_bool 4 duration then
    choice rng Spiral [Butterfly]
  else if is_downbeat || (is_strong && Qle_bool 2 duration) then
    choice rng Wipe [Twinkle; Butterfly]
  else if is_strong then
    choice rng Pulse [Pulse; Twinkle]
  else (Pulse, rng).

Section Pass.
Variable beats : list Q.
Variable downbeats : list Q.
Variable strong_beats : list Q.
Variable existing_effects : list interval.

(** One iteration of [while beat_idx < len(beats)]; the defaults of
    [is_gap] (0.3) and of [find_end_beat] (0.5, 10.0) are in force. *)
Definition body (st : state) : py state :=
  match nth_error beats (beat_idx st) with
  | None => Raise_IndexError
  | Some beat_time =>
      if is_gap beat_time existing_effects (3 # 10) then
        let is_downbeat := mem beat_time downbeats in
        let is_strong := mem beat_time strong_beats in
        match find_end_beat (beat_idx st) beats existing_effects
                is_downbeat is_strong (1 # 2) 10 with
        | Raise_IndexError => Raise_IndexError
        | Ret (Some (end_idx, end_time, duration)) =>
            let (effect_type, rng1) :=
              choose_type is_downbeat is_strong duration (rng st) in
            let (color, rng2) := choice rng1 Red (tl COLORS) in
            Ret (mkState (end_idx + 1)
                   (effects_to_add st
                      ++ [mkPlanned beat_time end_time duration effect_type
                            color is_downbeat is_strong])
                   rng2)
        | Ret None =>
            Ret (mkState (beat_idx st + 1) (effects_to_add st) (rng st))
        end
      else Ret (mkState (beat_idx st + 1) (effects_to_add st) (rng st))
  end.

Fixpoint loop (fuel : nat) (st : state) : option (py state) :=
  if (length beats <=? beat_idx st)%nat then Some (Ret st)
  else
    match fuel with
    | O => None
    | S fuel' =>
        match body st with
        | Ret st' => loop fuel' st'
        | Raise_IndexError => Some Raise_IndexError
        end
    end.

Definition init (rng : Tape) : state := mkState 0 [] rng.

Definition schedule (rng : Tape) : option (py state) :=
  loop (length beats) (init rng).

End Pass.

End Waveform.

(** ** [add_beat_synced_effects.py] *)

Module BeatSynced.

Record state : Type := mkState {
  i : nat;
  color_idx : nat;
  new_effects : list Effect;
  rng : Tape;
  entropy : Tape
}.

(** The [for] loop of [find_gap_duration]: [end_time] is pulled back to
    0.1 s before every occupied start strictly between the time point and
    the current [end_time]. *)
Fixpoint gap_end (time_point end_time : Q) (existing_effects : list interval)
  : Q :=
  match existing_effects with
  | [] => end_time
  | (start, _) :: rest =>
      if Qlt_bool time_point start && Qlt_bool start end_time
      then gap_end time_point (start - (1 # 10)) rest
      else gap_end time_point end_time rest
  end.

Definition find_gap_duration (time_point : Q)
  (existing_effects : list interval) (max_duration : Q) : Q :=
  pymin (gap_end time_point (time_point + max_duration) existing_effects
         - time_point)
        max_duration.

(** [while i < len(beats_in_gaps) and beats_in_gaps[i] < bound: i += 1],
    run on the beats from index [i] on. *)
Fixpoint skip_covered (bound : Q) (from_i : list Q) (i : nat) : nat :=
  match from_i with
  | [] => i
  | b :: rest =>
      if Qlt_bool b bound then skip_covered bound rest (i + 1) else i
  end.

(** The three branches on [gap_duration]: duration, kind and parameters.
    In the medium branch [make_butterfly_data] takes its default type and
    draws nothing. *)
Definition place (gap_duration : Q) (rng : Tape)
  : Q * Kind * Variant * Tape :=
  if Qle_bool 5 gap_duration then
    let (effect_choice, rng1) := choice rng Spiral [Butterfly; Twinkle] in
    let duration := pymin gap_duration 8 in
    match effect_choice with
    | Spiral =>
        let (cs, rng2) := sample rng1 COLORS 3 in
        (duration, Spiral, SpiralColors cs, rng2)
    | Butterfly =>
        let (btype, rng2) := choice rng1 1%nat [2; 3; 4; 5]%nat in
        (duration, Butterfly, ButterflyType btype, rng2)
    | _ => (duration, Twinkle, NoVariant, rng1)
    end
  else if Qle_bool (5 # 2) gap_duration then
    let (effect_choice, rng1) := choice rng Wipe [Twinkle; Butterfly] in
    let duration := pymin gap_duration 5 in
    match effect_choice with
    | Wipe =>
        let (direction, rng2) := choice rng1 0%nat [1; 2; 3]%nat in
        (duration, Wipe, WipeDirection direction, rng2)
    | Butterfly => (duration, Butterfly, ButterflyType 1, rng1)
    | _ => (duration, Twinkle, NoVariant, rng1)
    end
  else (pymin gap_duration 2, Pulse, NoVariant, rng).

Section Pass.
Variable drum_beats : list Q.
Variable existing_effects : list interval.

Definition beats_in_gaps : list Q :=
  filter (fun beat_time => is_gap beat_time existing_effects (3 # 10))
         drum_beats.

(** One iteration of [while i < len(beats_in_gaps)].  The counter
    [beats_in_this_gap] of the script is written and never read; it is
    left out. *)
Definition body (st : state) : py state :=
  match nth_error beats_in_gaps (i st) with
  | None => Raise_IndexError
  | Some beat_time =>
      let gap_duration := find_gap_duration beat_time existing_effects 10 in
      let color := nth (color_idx st mod length COLORS) COLORS Red in
      let (effect_id, entropy') := uuid4 (entropy st) in
      let '(duration, type_id, v, rng') := place gap_duration (rng st) in
      Ret (mkState
             (skip_covered (beat_time + duration)
                (skipn (i st) beats_in_gaps) (i st))
             (color_idx st + 1)
             (new_effects st
                ++ [mkEffect effect_id beat_time duration type_id color v])
             rng' entropy')
  end.

Fixpoint loop (fuel : nat) (st : state) : option (py state) :=
  if (length beats_in_gaps <=? i st)%nat then Some (Ret st)
  else
    match fuel with
    | O => None
    | S fuel' =>
        match body st with
        | Ret st' => loop fuel' st'
        | Raise_IndexError => Some Raise_IndexError
        end
    end.

Definition init (rng entropy : Tape) : state := mkState 0 0 [] rng entropy.

Definition schedule (rng entropy : Tape) : option (py state) :=
  loop (length beats_in_gaps) (init rng entropy).

(** The state after [n] iterations of the loop, or after the last one when
    the loop ends earlier. *)
Fixpoint iterate (n : nat) (st : state) : py state :=
  match n with
  | O => Ret st
  | S n' =>
      if (length beats_in_gaps <=? i st)%nat then Ret st
      else
        match body st with
        | Ret st' => iterate n' st'
        | Raise_IndexError => Raise_IndexError
        end
  end.

End Pass.

End BeatSynced.

(** ** The arithmetic of the scripts: binary64

    A Python float is an IEEE 754 binary64 number; [+], [-] and [/] round
    to nearest, ties to even.  [SpecFloat] defines these operations on
    [spec_float]; precision 53 and maximal exponent 1024 give binary64.
    The functions of the scripts whose computed values exact arithmetic
    does not reproduce are repeated here over these numbers: the end-point
    scan with its [duration], the gap test, the free span and one iteration
    of the free-running loop.  The kind, the identifier and the colour of
    an effect do not enter its timing and are left out of [body]. *)

Module Float64.

Definition float : Type := SpecFloat.spec_float.

Definition prec : Z := 53%Z.
Definition emax : Z := 1024%Z.

(** [float(n)] for an integer [n]. *)
Definition of_Z (n : Z) : float :=
  SpecFloat.binary_normalize prec emax n 0%Z false.

Definition add : float -> float -> float := SpecFloat.SFadd prec emax.
Definition sub : float -> float -> float := SpecFloat.SFsub prec emax.
Definition div : float -> float -> float := SpecFloat.SFdiv prec emax.
Definition ltb : float -> float -> bool := SpecFloat.SFltb.
Definition leb : float -> float -> bool := SpecFloat.SFleb.

(** The float a decimal literal with value [n / d] denotes, the binary64
    number nearest to it: for [n] and [d] below 2^53 both conversions are
    exact and the quotient is rounded once. *)
Definition decimal (n d : Z) : float := div (of_Z n) (of_Z d).


Definition pymin (a b : float) : float := if ltb b a then b else a.

Fixpoint is_gap (time_point : float) (existing_effects : list (float * float))
  (threshold : float) : bool :=
  match existing_effects with
  | [] => true
  | (start, end_) :: rest =>
      if leb (sub start threshold) time_point
         && leb time_point (add end_ threshold)
      then false
      else is_gap time_point rest threshold
  end.

Fixpoint overlaps (end_time : float) (existing_effects : list (float * float))
  : bool :=
  match existing_effects with
  | [] => false
  | (ex_start, ex_end) :: rest =>
      if leb ex_start end_time && leb end_time ex_end
      then true
      else overlaps end_time rest
  end.

Fixpoint scan_end_beats (start_time : float) (beats : list float)
  (existing_effects : list (float * float)) (min_dur max_dur : float)
  (idxs : list nat) : py (option (nat * float * float)) :=
  match idxs with
  | [] => Ret None
  | i :: rest =>
      match nth_error beats i with
      | None => Raise_IndexError
      | Some end_time =>
          let duration := sub end_time start_time in
          if ltb duration min_dur then
            scan_end_beats start_time beats existing_effects min_dur max_dur rest
          else if ltb max_dur duration then Ret None
          else if overlaps end_time existing_effects then
            scan_end_beats start_time beats existing_effects min_dur max_dur rest
          else Ret (Some (i, end_time, duration))
      end
  end.

(** [find_end_beat] of [add_beatnet_effects.py]. *)
Definition find_end_beat (start_beat_idx : nat) (beats : list float)
  (existing : list (float * float)) (min_duration max_duration : float)
  : py (option (nat * float * float)) :=
  match nth_error beats start_beat_idx with
  | None => Raise_IndexError
  | Some start_time =>
      scan_end_beats start_time beats existing min_duration max_duration
        (range (start_beat_idx + 1)
           (Nat.min (start_beat_idx + 20) (length beats)))
  end.

Fixpoint gap_end (time_point end_time : float)
  (existing_effects : list (float * float)) : float :=
  match existing_effects with
  | [] => end_time
  | (start, _) :: rest =>
      if ltb time_point start && ltb start end_time
      then gap_end time_point (sub start (decimal 1 10)) rest
      else gap_end time_point end_time rest
  end.

Definition find_gap_duration (time_point : float)
  (existing_effects : list (float * float)) (max_duration : float) : float :=
  pymin (sub (gap_end time_point (add time_point max_duration)
                existing_effects)
             time_point)
        max_duration.

Fixpoint skip_covered (bound : float) (from_i : list float) (i : nat) : nat :=
  match from_i with
  | [] => i
  | b :: rest =>
      if ltb b bound then skip_covered bound rest (i + 1) else i
  end.

(** The [duration] of the three branches on [gap_duration]. *)
Definition duration_of (gap_duration : float) : float :=
  if leb (of_Z 5) gap_duration then pymin gap_duration (of_Z 8)
  else if leb (decimal 25 10) gap_duration then pymin gap_duration (of_Z 5)
  else pymin gap_duration (of_Z 2).

Definition beats_in_gaps (drum_beats : list float)
  (existing_effects : list (float * float)) : list float :=
  filter (fun beat_time => is_gap beat_time existing_effects (decimal 3 10))
         drum_beats.

(** One iteration of [while i < len(beats_in_gaps)] of
    [add_beat_synced_effects.py]: the cursor after it, and the start time
    and duration of the effect it appends. *)
Definition body (drum_beats : list float)
  (existing_effects : list (float * float)) (i : nat)
  : py (nat * (float * float)) :=
  match nth_error (beats_in_gaps drum_beats existing_effects) i with
  | None => Raise_IndexError
  | Some beat_time =>
      let gap_duration :=
        find_gap_duration beat_time existing_effects (of_Z 10) in
      let duration := duration_of gap_duration in
      Ret (skip_covered (add beat_time duration)
             (skipn i (beats_in_gaps drum_beats existing_effects)) i,
           (beat_time, duration))
  end.

End Float64.

(** * Specification vocabulary

    The predicates and helper values the statements below are written
    with.  None of them is part of the scripts. *)

(** A tape that always yields 0, and one that always yields 1. *)
Definition tape0 : Tape := mkTape (fun _ => 0%nat) 0.
Definition tape1 : Tape := mkTape (fun _ => 1%nat) 0.

(** ** The end-point scan *)

Definition in_window (start_beat_idx : nat) (beats : list Q) (k : nat) : Prop :=
  (start_beat_idx < k /\ k < start_beat_idx + 20 /\ k < length beats)%nat.

Section EndPointVocabulary.
Variable start_time : Q.
Variable beats : list Q.
Variable existing : list interval.
Variables min_dur max_dur : Q.

(** The three verdicts of the loop body on a candidate end time. *)
Definition accepted (t : Q) : Prop :=
  min_dur <= t - start_time /\ t - start_time <= max_dur
  /\ overlaps t existing = false.

Definition rejected (t : Q) : Prop :=
  t - start_time < min_dur
  \/ (t - start_time <= max_dur /\ overlaps t existing = true).

Definition stops (t : Q) : Prop :=
  min_dur <= t - start_time /\ max_dur < t - start_time.

(** Every candidate with index in [[a, k)] is skipped. *)
Definition all_rejected (a k : nat) : Prop :=
  forall j tj, (a <= j < k)%nat -> nth_error beats j = Some tj -> rejected tj.

Definition scan_result (a b : nat) (r : option (nat * Q * Q)) : Prop :=
  match r with
  | Some (k, t, d) =>
      (a <= k < b)%nat /\ nth_error beats k = Some t /\ d = t - start_time
      /\ accepted t /\ all_rejected a k
  | None =>
      all_rejected a b
      \/ exists k tk, (a <= k < b)%nat /\ nth_error beats k = Some tk
                      /\ stops tk /\ all_rejected a k
  end.

End EndPointVocabulary.

(** ** Strings the decoder is given *)

(** Every character is an ASCII character: the class [\d] of the pattern
    then holds the ten digits [0] to [9] and nothing else. *)
Definition ascii_only (s : string) : bool :=
  forallb (fun c => (nat_of_ascii c <? 128)%nat) (list_ascii_of_string s).

(** At most 300 ASCII characters: the digit runs are then short enough for
    [int], [float] and [mins * 60 + secs] to return finite values. *)
Definition plain (s : string) : bool :=
  (String.length s <=? 300)%nat && ascii_only s.

(** Every start and span text of the timeline is plain. *)
Definition plain_matches (matches : list (string * string)) : bool :=
  forallb (fun m => plain (fst m) && plain (snd m)) matches.

(** ** Beats and occupied intervals *)

(** Strictly increasing, the order the data model requires of the beats. *)
Fixpoint increasing (l : list Q) : bool :=
  match l with
  | a :: (b :: _) as r => Qlt_bool a b && increasing r
  | _ => true
  end.

(** Every occupied interval ends no earlier than it starts. *)
Definition well_formed (ex : list interval) : Prop :=
  forall s e, In (s, e) ex -> s <= e.



(** ** Salience tiers of the duration policy *)

(** The salience tier of a start beat: a downbeat wins over a strong beat. *)
Inductive Salience : Type := Normal | Strong | Downbeat.

Definition salience (is_downbeat is_strong : bool) : Salience :=
  if is_downbeat then Downbeat else if is_strong then Strong else Normal.

(** The eligible kinds of each tier, as the duration policy lists them. *)
Definition eligible (s : Salience) : list Kind :=
  match s with
  | Downbeat => [Spiral; Butterfly; Twinkle; Wipe]
  | Strong => [Pulse; Twinkle; Wipe; Butterfly]
  | Normal => [Pulse]
  end.

(** The ranges the duration policy allows for the bounds of each tier. *)
Definition policy_range (s : Salience) (min_dur max_dur : Q) : Prop :=
  match s with
  | Downbeat => 1 <= min_dur <= 2 /\ 8 <= max_dur <= 10
  | Strong => 1 # 2 <= min_dur <= 7 # 10 /\ 2 <= max_dur <= 4
  | Normal => 1 # 10 <= min_dur <= 1 # 2 /\ max_dur <= 2
  end.

(** ** The pass of [add_beatnet_effects.py] *)

Section BeatnetVocabulary.
Import Beatnet.
Variable beats : list Q.
Variable downbeats : list Q.
Variable existing0 : list interval.

Definition max_of (is_downbeat : bool) : Q := fst (fst (tier is_downbeat)).

Definition min_of (is_downbeat : bool) : Q := snd (fst (tier is_downbeat)).

Definition kinds_of (is_downbeat : bool) : list Kind :=
  fst (snd (tier is_downbeat)) :: snd (snd (tier is_downbeat)).

(** The state after an iteration that places nothing. *)
Definition skipped (st : state) : state :=
  mkState (i st + 1) (color_idx st) (existing_effects st) (new_effects st)
    (rng st) (entropy st).

(** The state after an iteration that places [e] and occupies
    [(start_time e, end_time)], with end index [end_idx]. *)
Definition placed (st st' : state) (end_idx : nat) (end_time : Q) (e : Effect)
  : Prop :=
  i st' = (end_idx + 1)%nat
  /\ color_idx st' = (color_idx st + 1)%nat
  /\ existing_effects st'
     = sort (existing_effects st ++ [(start_time e, end_time)])
  /\ new_effects st' = new_effects st ++ [e].

(** What is known of an emitted effect while the pass runs: the indices of
    its start and end beats, its window and kind, and the tests it passed
    against the occupied list. *)
Definition beatnet_effect_ok (existing_now : list interval) (cursor : nat)
  (e : Effect) : Prop :=
  exists si ei end_time,
    (si < ei < cursor)%nat
    /\ nth_error beats si = Some (start_time e)
    /\ nth_error beats ei = Some end_time
    /\ time_span e = end_time - start_time e
    /\ In (start_time e, end_time) existing_now
    /\ is_gap (start_time e) existing0 (3 # 10) = true
    /\ overlaps end_time existing0 = false
    /\ min_of (mem (start_time e) downbeats) <= time_span e
    /\ time_span e <= max_of (mem (start_time e) downbeats)
    /\ In (effect_type e) (kinds_of (mem (start_time e) downbeats)).

(** Later effects start more than 0.3 s after earlier ones end. *)
Definition separated (out : list Effect) : Prop :=
  forall j k ej ek, (j < k)%nat ->
    nth_error out j = Some ej -> nth_error out k = Some ek ->
    start_time ej + time_span ej + (3 # 10) < start_time ek.

Definition beatnet_inv (st : state) : Prop :=
  (forall x, In x existing0 -> In x (existing_effects st))
  /\ (forall e, In e (new_effects st) ->
        beatnet_effect_ok (existing_effects st) (i st) e)
  /\ (increasing beats = true -> separated (new_effects st)).

End BeatnetVocabulary.

(** ** The pass of [add_waveform_effects.py] *)

Section WaveformVocabulary.
Import Waveform.
Variable beats : list Q.
Variable downbeats : list Q.
Variable strong_beats : list Q.
Variable existing : list interval.

Definition wskipped (st : state) : state :=
  mkState (beat_idx st + 1) (effects_to_add st) (rng st).

(** What is known of a planned effect while the pass runs. *)
Definition planned_ok (cursor : nat) (p : Planned) : Prop :=
  exists si ei,
    (si < ei < cursor)%nat
    /\ nth_error beats si = Some (start_time p)
    /\ nth_error beats ei = Some (end_time p)
    /\ duration p = end_time p - start_time p
    /\ is_downbeat p = mem (start_time p) downbeats
    /\ is_strong p = mem (start_time p) strong_beats
    /\ is_gap (start_time p) existing (3 # 10) = true
    /\ accepted (start_time p) existing
         (fst (window (is_downbeat p) (is_strong p) (1 # 2) 10))
         (snd (window (is_downbeat p) (is_strong p) (1 # 2) 10))
         (end_time p)
    /\ In (effect_type p) (eligible (salience (is_downbeat p) (is_strong p)))
    /\ (effect_type p = Pulse ->
        is_downbeat p = false /\ (is_strong p = true -> duration p < 2)).

(** Later planned effects start after earlier ones end. *)
Definition in_sequence (out : list Planned) : Prop :=
  forall j k pj pk, (j < k)%nat ->
    nth_error out j = Some pj -> nth_error out k = Some pk ->
    end_time pj < start_time pk.

Definition waveform_inv (st : state) : Prop :=
  (forall p, In p (effects_to_add st) -> planned_ok (beat_idx st) p)
  /\ (increasing beats = true -> in_sequence (effects_to_add st)).

End WaveformVocabulary.

(** ** The pass of [add_beat_synced_effects.py] *)

Section BeatSyncedVocabulary.
Import BeatSynced.

(** The cap the three branches of the script put on the free span. *)
Definition cap_of (gap_duration : Q) : Q :=
  if Qle_bool 5 gap_duration then 8
  else if Qle_bool (5 # 2) gap_duration then 5 else 2.

(** Every emitted time span exceeds 0.2 s. *)
Definition synced_inv (st : state) : Prop :=
  forall e, In e (new_effects st) -> 2 # 10 < time_span e.

End BeatSyncedVocabulary.

(** ** The part of the output that no random draw touches *)

(** The part of an emitted effect that no random draw touches. *)
Definition timing (e : Effect) : Q * Q * Color :=
  (start_time e, time_span e, color e).

Definition planned_timing (p : Waveform.Planned) : Q * Q * Q * bool * bool :=
  (Waveform.start_time p, Waveform.end_time p, Waveform.duration p,
   Waveform.is_downbeat p, Waveform.is_strong p).

Definition same_timing (st1 st2 : Beatnet.state) : Prop :=
  Beatnet.i st1 = Beatnet.i st2
  /\ Beatnet.color_idx st1 = Beatnet.color_idx st2
  /\ Beatnet.existing_effects st1 = Beatnet.existing_effects st2
  /\ map timing (Beatnet.new_effects st1) = map timing (Beatnet.new_effects st2).

Definition same_plan (st1 st2 : Waveform.state) : Prop :=
  Waveform.beat_idx st1 = Waveform.beat_idx st2
  /\ map planned_timing (Waveform.effects_to_add st1)
     = map planned_timing (Waveform.effects_to_add st2).

(** ** Vocabulary of the further properties *)

(** The number of 1e-7 s units the groups of a match denote: the minutes
    of group 1 and the digits of group 2 read without the point. *)
Definition written_units (g1 : option (list ascii)) (ds fs : list ascii) : Z :=
  ((match g1 with Some ms => int_of ms | None => 0 end) * 600000000
   + int_of (ds ++ fs))%Z.

(** Colours are taken from the palette in rotation. *)
Definition round_robin (out : list Effect) : Prop :=
  forall j e, nth_error out j = Some e ->
    color e = nth (j mod length COLORS) COLORS Red.

(** Each effect ends no later than the next one starts. *)
Definition abutting (out : list Effect) : Prop :=
  forall j k ej ek, (j < k)%nat ->
    nth_error out j = Some ej -> nth_error out k = Some ek ->
    start_time ej + time_span ej <= start_time ek.

(** The range of durations each kind is given by the free-running script. *)
Definition kind_span_ok (k : Kind) (d : Q) : Prop :=
  match k with
  | Pulse => d <= 2
  | Wipe => 5 # 2 <= d /\ d < 5
  | Spiral => 5 <= d /\ d <= 8
  | Twinkle | Butterfly => 5 # 2 <= d /\ d <= 8
  end.

(** The iteration of [add_beatnet_effects.py] at beat [j] places nothing
    when the occupied list is [ex]: the beat is not a gap, or no end beat
    is found. *)
Definition no_placement_at (beats downbeats : list Q) (ex : list interval)
  (j : nat) : Prop :=
  forall bt, nth_error beats j = Some bt ->
    is_gap bt ex (3 # 10) = false
    \/ Beatnet.find_end_beat j beats ex (min_of (mem bt downbeats))
         (max_of (mem bt downbeats)) = Ret None.

(** The intervals the emitted effects occupy, given their end times. *)
Definition occupied_by (out : list Effect) (ends : list Q) : list interval :=
  combine (map start_time out) ends.

(** The bookkeeping of the pass of [add_beatnet_effects.py]: the colour
    counter, the cursor and the occupied list against the emitted list. *)
Definition beatnet_books (beats : list Q) (existing0 : list interval)
  (st : Beatnet.state) : Prop :=
  Beatnet.color_idx st = length (Beatnet.new_effects st)
  /\ round_robin (Beatnet.new_effects st)
  /\ (2 * length (Beatnet.new_effects st) <= Beatnet.i st)%nat
  /\ (Beatnet.i st <= length beats)%nat
  /\ exists ends,
       Forall2 (fun e t => time_span e = t - start_time e)
         (Beatnet.new_effects st) ends
       /\ Permutation (Beatnet.existing_effects st)
            (existing0 ++ occupied_by (Beatnet.new_effects st) ends).

(** What is known of the effects of [add_beat_synced_effects.py] while the
    pass runs. *)
Definition synced_books (drum_beats : list Q) (existing : list interval)
  (st : BeatSynced.state) : Prop :=
  (forall e, In e (BeatSynced.new_effects st) ->
     is_gap (start_time e) existing (3 # 10) = true
     /\ In (start_time e) drum_beats
     /\ time_span e
        = pymin (BeatSynced.find_gap_duration (start_time e) existing 10)
                (cap_of (BeatSynced.find_gap_duration (start_time e) existing 10))
     /\ kind_span_ok (effect_type e) (time_span e))
  /\ BeatSynced.color_idx st = length (BeatSynced.new_effects st)
  /\ round_robin (BeatSynced.new_effects st)
  /\ (length (BeatSynced.new_effects st) <= BeatSynced.i st)%nat
  /\ (BeatSynced.i st
      <= length (BeatSynced.beats_in_gaps drum_beats existing))%nat
  /\ (increasing drum_beats = true ->
      abutting (BeatSynced.new_effects st)
      /\ forall e j x, In e (BeatSynced.new_effects st) ->
           (BeatSynced.i st <= j)%nat ->
           nth_error (BeatSynced.beats_in_gaps drum_beats existing) j = Some x ->
           start_time e + time_span e <= x).

(** * Properties *)

(** ** Comparisons, [pymin], membership *)

Lemma Qlt_bool_iff (x y : Q) : Qlt_bool x y = true <-> x < y.
Proof.
  unfold Qlt_bool. rewrite negb_true_iff.
  split; intro H.
  - apply Qnot_le_lt. intro L. apply Qle_bool_iff in L. congruence.
  - destruct (Qle_bool y x) eqn:E; [|reflexivity].
    apply Qle_bool_iff in E. lra.
Qed.

Lemma Qlt_bool_false (x y : Q) : Qlt_bool x y = false <-> y <= x.
Proof.
  unfold Qlt_bool. rewrite negb_false_iff. apply Qle_bool_iff.
Qed.

Lemma Qle_bool_false (x y : Q) : Qle_bool x y = false <-> y < x.
Proof.
  rewrite <- Qlt_bool_iff. unfold Qlt_bool.
  destruct (Qle_bool x y); simpl; intuition congruence.
Qed.

Lemma pymin_cases (a b : Q) :
  (b < a /\ pymin a b = b) \/ (a <= b /\ pymin a b = a).
Proof.
  unfold pymin. destruct (Qlt_bool b a) eqn:E.
  - left. apply Qlt_bool_iff in E. auto.
  - right. apply Qlt_bool_false in E. auto.
Qed.

Ltac pymin_split a b :=
  let H := fresh "Hmin" in
  let E := fresh "Emin" in
  destruct (pymin_cases a b) as [[H E]|[H E]]; rewrite ?E in *.

(** ** [is_gap] and [overlaps] as statements about the occupied list *)

Lemma is_gap_true (t th : Q) (ex : list interval) :
  is_gap t ex th = true <->
  forall s e, In (s, e) ex -> ~ (s - th <= t /\ t <= e + th).
Proof.
  induction ex as [|[s0 e0] ex IH]; simpl.
  - split; [intros _ s e []|reflexivity].
  - destruct (Qle_bool (s0 - th) t && Qle_bool t (e0 + th)) eqn:E.
    + split; [discriminate|]. intro H. exfalso.
      apply andb_true_iff in E. destruct E as [E1 E2].
      apply Qle_bool_iff in E1. apply Qle_bool_iff in E2.
      apply (H s0 e0); auto.
    + rewrite IH. split.
      * intros H s e [Heq|Hin]; [|auto].
        inversion Heq; subst. intros [H1 H2].
        apply Qle_bool_iff in H1. apply Qle_bool_iff in H2.
        rewrite H1, H2 in E. discriminate.
      * intros H s e Hin. apply H. auto.
Qed.

Lemma overlaps_false (t : Q) (ex : list interval) :
  overlaps t ex = false <->
  forall s e, In (s, e) ex -> ~ (s <= t /\ t <= e).
Proof.
  induction ex as [|[s0 e0] ex IH]; simpl.
  - split; [intros _ s e []|reflexivity].
  - destruct (Qle_bool s0 t && Qle_bool t e0) eqn:E.
    + split; [discriminate|]. intro H. exfalso.
      apply andb_true_iff in E. destruct E as [E1 E2].
      apply Qle_bool_iff in E1. apply Qle_bool_iff in E2.
      apply (H s0 e0); auto.
    + rewrite IH. split.
      * intros H s e [Heq|Hin]; [|auto].
        inversion Heq; subst. intros [H1 H2].
        apply Qle_bool_iff in H1. apply Qle_bool_iff in H2.
        rewrite H1, H2 in E. discriminate.
      * intros H s e Hin. apply H. auto.
Qed.

(** ** Sorting keeps the elements *)

Lemma In_insert_sorted (x y : interval) (l : list interval) :
  In y (insert_sorted x l) <-> y = x \/ In y l.
Proof.
  induction l as [|z l IH]; simpl.
  - intuition.
  - destruct (tuple_lt x z); simpl; rewrite ?IH; intuition.
Qed.

Lemma In_fold_insert (l acc : list interval) (y : interval) :
  In y (fold_left (fun a x => insert_sorted x a) l acc) <-> In y l \/ In y acc.
Proof.
  revert acc. induction l as [|x l IH]; intro acc; simpl.
  - intuition.
  - rewrite IH, In_insert_sorted. intuition.
Qed.

Lemma In_sort (l : list interval) (y : interval) : In y (sort l) <-> In y l.
Proof.
  unfold sort. rewrite In_fold_insert. simpl. intuition.
Qed.

(** ** The candidate window *)

Lemma In_lookahead (start k : nat) (beats : list Q) :
  In k (lookahead start beats) <-> in_window start beats k.
Proof.
  unfold lookahead, range, in_window. rewrite in_seq. lia.
Qed.

(** ** What the end-point scan returns *)

Section EndPoint.
Variable start_time : Q.
Variable beats : list Q.
Variable existing : list interval.
Variables min_dur max_dur : Q.

Local Abbreviation accepted := (accepted start_time existing min_dur max_dur).
Local Abbreviation rejected := (rejected start_time existing min_dur max_dur).
Local Abbreviation stops := (stops start_time min_dur max_dur).
Local Abbreviation all_rejected :=
  (all_rejected start_time beats existing min_dur max_dur).
Local Abbreviation scan_result :=
  (scan_result start_time beats existing min_dur max_dur).

Lemma all_rejected_cons (a k : nat) (t : Q) :
  nth_error beats a = Some t -> rejected t ->
  all_rejected (S a) k -> all_rejected a k.
Proof.
  intros Ha Hr H j tj Hj Hn.
  destruct (Nat.eq_dec j a) as [->|Hne].
  - rewrite Ha in Hn. inversion Hn; subst. exact Hr.
  - apply (H j tj); [lia|exact Hn].
Qed.

Lemma scan_result_skip (a b : nat) (t : Q) (r : option (nat * Q * Q)) :
  nth_error beats a = Some t -> rejected t ->
  scan_result (S a) b r -> scan_result a b r.
Proof.
  intros Ha R Hspec.
  destruct r as [[[k t'] d]|]; simpl in *.
  - destruct Hspec as (Hk & Hn & Hd & Hacc & Hrej).
    split; [lia|]. split; [exact Hn|]. split; [exact Hd|].
    split; [exact Hacc|]. eapply all_rejected_cons; eauto.
  - destruct Hspec as [Hall|(k & tk & Hk & Hn & Hs & Hrej)].
    + left. eapply all_rejected_cons; eauto.
    + right. exists k, tk. split; [lia|]. split; [exact Hn|].
      split; [exact Hs|]. eapply all_rejected_cons; eauto.
Qed.

Lemma scan_seq_spec (n a : nat) :
  (a + n <= length beats)%nat ->
  exists r,
    scan_end_beats start_time beats existing min_dur max_dur (seq a n) = Ret r
    /\ scan_result a (a + n) r.
Proof.
  revert a. induction n as [|n IH]; intros a Hlen; simpl.
  - exists None. split; [reflexivity|]. left. intros j tj Hj. lia.
  - destruct (nth_error beats a) as [t|] eqn:Ha.
    2:{ apply nth_error_None in Ha. lia. }
    destruct (IH (S a)) as [r [Hr Hspec]]; [lia|].
    replace (S a + n)%nat with (a + S n)%nat in Hspec by lia.
    destruct (Qlt_bool (t - start_time) min_dur) eqn:Emin.
    { apply Qlt_bool_iff in Emin.
      exists r. split; [exact Hr|].
      apply scan_result_skip with (t := t); auto. left. exact Emin. }
    apply Qlt_bool_false in Emin.
    destruct (Qlt_bool max_dur (t - start_time)) eqn:Emax.
    { apply Qlt_bool_iff in Emax.
      exists None. split; [reflexivity|]. right. exists a, t.
      split; [lia|]. split; [exact Ha|]. split; [split; assumption|].
      intros j tj Hj. lia. }
    apply Qlt_bool_false in Emax.
    destruct (overlaps t existing) eqn:Eov.
    { exists r. split; [exact Hr|].
      apply scan_result_skip with (t := t); auto. right. split; assumption. }
    exists (Some (a, t, t - start_time)). split; [reflexivity|]. simpl.
    split; [lia|]. split; [exact Ha|]. split; [reflexivity|].
    split; [repeat split; assumption|].
    intros j tj Hj. lia.
Qed.

(** The scan over the lookahead window of start index [s]. *)
Lemma scan_lookahead_spec (s : nat) :
  exists r,
    scan_end_beats start_time beats existing min_dur max_dur (lookahead s beats)
    = Ret r
    /\ scan_result (s + 1) (Nat.min (s + 20) (length beats)) r.
Proof.
  unfold lookahead, range.
  destruct (Nat.le_gt_cases (Nat.min (s + 20) (length beats)) (s + 1)) as [Hle|Hgt].
  - replace (Nat.min (s + 20) (length beats) - (s + 1))%nat with 0%nat by lia.
    exists None. split; [reflexivity|]. left. intros j tj Hj. lia.
  - destruct (scan_seq_spec (Nat.min (s + 20) (length beats) - (s + 1)) (s + 1))
      as [r [Hr Hspec]]; [lia|].
    exists r. split; [exact Hr|].
    replace (s + 1 + (Nat.min (s + 20) (length beats) - (s + 1)))%nat
      with (Nat.min (s + 20) (length beats)) in Hspec by lia.
    exact Hspec.
Qed.

End EndPoint.

(** ** Sorted beat lists *)

Lemma increasing_tail (a : Q) (r : list Q) :
  increasing (a :: r) = true -> increasing r = true.
Proof.
  destruct r as [|b r]; simpl; [reflexivity|].
  intro H. apply andb_true_iff in H. tauto.
Qed.

Lemma increasing_head (r : list Q) (a y : Q) :
  increasing (a :: r) = true -> In y r -> a < y.
Proof.
  revert a. induction r as [|b r IH]; intros a H Hin; [destruct Hin|].
  simpl in H. apply andb_true_iff in H. destruct H as [Hab Hr].
  apply Qlt_bool_iff in Hab.
  destruct Hin as [->|Hin]; [exact Hab|].
  specialize (IH b Hr Hin). lra.
Qed.

Lemma increasing_nth (l : list Q) :
  increasing l = true ->
  forall j k x y, (j < k)%nat ->
    nth_error l j = Some x -> nth_error l k = Some y -> x < y.
Proof.
  induction l as [|a r IH]; intros H j k x y Hjk Hj Hk.
  - destruct j; discriminate.
  - destruct k as [|k]; [lia|]. simpl in Hk.
    destruct j as [|j]; simpl in Hj.
    + inversion Hj; subst. eapply increasing_head; eauto.
      eapply nth_error_In; eauto.
    + apply (IH (increasing_tail _ _ H) j k); auto. lia.
Qed.

Lemma increasing_nth_le (l : list Q) :
  increasing l = true ->
  forall j k x y, (j <= k)%nat ->
    nth_error l j = Some x -> nth_error l k = Some y -> x <= y.
Proof.
  intros H j k x y Hjk Hj Hk.
  destruct (Nat.eq_dec j k) as [->|Hne].
  - rewrite Hj in Hk. inversion Hk; subst. lra.
  - apply Qlt_le_weak. apply (@increasing_nth l H j k); auto. lia.
Qed.

(** ** [random.choice] returns a member of its argument *)

Lemma choice_In (A : Type) (rng : Tape) (x : A) (xs : list A) :
  In (fst (choice rng x xs)) (x :: xs).
Proof.
  unfold choice, draw. cbn [fst].
  apply nth_In. cbn [length].
  apply Nat.mod_upper_bound. discriminate.
Qed.

(** ** The beat-quantized pass of [add_beatnet_effects.py] *)

Section BeatnetFacts.
Import Beatnet.
Variable beats : list Q.
Variable downbeats : list Q.

Lemma body_cases (st : state) (beat_time : Q) :
  nth_error beats (i st) = Some beat_time ->
  body beats downbeats st = Ret (skipped st)
  \/ exists st' end_idx end_time e,
       body beats downbeats st = Ret st'
       /\ placed st st' end_idx end_time e
       /\ start_time e = beat_time
       /\ time_span e = end_time - beat_time
       /\ color e = nth (color_idx st mod length COLORS) COLORS Red
       /\ In (effect_type e) (kinds_of (mem beat_time downbeats))
       /\ is_gap beat_time (existing_effects st) (3 # 10) = true
       /\ in_window (i st) beats end_idx
       /\ nth_error beats end_idx = Some end_time
       /\ accepted beat_time (existing_effects st)
            (min_of (mem beat_time downbeats))
            (max_of (mem beat_time downbeats)) end_time.
Proof.
  intros Hbt. unfold body. rewrite Hbt.
  destruct (is_gap beat_time (existing_effects st) (3 # 10)) eqn:Egap;
    cbn [negb]; [|left; reflexivity].
  unfold find_end_beat. rewrite Hbt.
  unfold kinds_of, min_of, max_of.
  destruct (tier (mem beat_time downbeats)) as [[mx mn] [c0 cs]] eqn:Etier.
  cbn [fst snd].
  destruct (scan_lookahead_spec beat_time beats (existing_effects st) mn mx (i st))
    as [r [Hr Hspec]].
  rewrite Hr.
  destruct r as [[[end_idx end_time] duration]|]; [|left; reflexivity].
  right. simpl in Hspec.
  destruct Hspec as (Hk & Hn & Hd & Hacc & _).
  pose proof (choice_In (rng st) c0 cs) as Hch.
  destruct (uuid4 (entropy st)) as [eid ent'].
  destruct (choice (rng st) c0 cs) as [et rng1]. cbn [fst] in Hch.
  destruct (draw_variant et rng1) as [v rng2].
  eexists. exists end_idx, end_time.
  exists (mkEffect eid beat_time duration et
            (nth (color_idx st mod length COLORS) COLORS Red) v).
  split; [reflexivity|].
  split; [unfold placed; cbn; auto|]. cbn.
  split; [reflexivity|]. split; [exact Hd|]. split; [reflexivity|].
  split; [exact Hch|]. split; [reflexivity|].
  split; [unfold in_window; lia|]. split; [exact Hn|exact Hacc].
Qed.

(** Invariant-carrying iteration: if every iteration from a state with
    the invariant keeps it and moves the cursor forward, the loop ends
    within [length beats - i] iterations in a state with the invariant. *)
Lemma beatnet_loop_inv (P : state -> Prop) :
  (forall st, P st -> (i st < length beats)%nat ->
     exists st', body beats downbeats st = Ret st' /\ P st'
                 /\ (i st < i st')%nat) ->
  forall fuel st, P st -> (length beats - i st <= fuel)%nat ->
    exists st', loop beats downbeats fuel st = Some (Ret st') /\ P st'
                /\ (length beats <= i st')%nat.
Proof.
  intros Hstep. induction fuel as [|fuel IH]; intros st HP Hfuel.
  - exists st. simpl.
    destruct (Nat.leb_spec (length beats) (i st)); [auto|lia].
  - simpl. destruct (Nat.leb_spec (length beats) (i st)) as [Hdone|Hlt].
    + exists st. auto.
    + destruct (Hstep st HP Hlt) as (st' & Hb & HP' & Hadv).
      rewrite Hb. apply IH; [exact HP'|lia].
Qed.

End BeatnetFacts.

Lemma is_gap_subset (t th : Q) (ex0 ex : list interval) :
  (forall x, In x ex0 -> In x ex) ->
  is_gap t ex th = true -> is_gap t ex0 th = true.
Proof.
  intros Hsub H. rewrite is_gap_true in *. intros s e Hin. apply H. auto.
Qed.

Lemma overlaps_subset (t : Q) (ex0 ex : list interval) :
  (forall x, In x ex0 -> In x ex) ->
  overlaps t ex = false -> overlaps t ex0 = false.
Proof.
  intros Hsub H. rewrite overlaps_false in *. intros s e Hin. apply H. auto.
Qed.

Lemma min_of_pos (b : bool) : 0 < min_of b.
Proof. destruct b; reflexivity. Qed.

Section BeatnetInvariant.
Import Beatnet.
Variable beats : list Q.
Variable downbeats : list Q.
Variable existing0 : list interval.

Local Abbreviation beatnet_effect_ok :=
  (beatnet_effect_ok beats downbeats existing0).
Local Abbreviation beatnet_inv := (beatnet_inv beats downbeats existing0).

Lemma beatnet_effect_ok_mono (ex ex' : list interval) (c c' : nat) (e : Effect) :
  (forall x, In x ex -> In x ex') -> (c <= c')%nat ->
  beatnet_effect_ok ex c e -> beatnet_effect_ok ex' c' e.
Proof.
  intros Hsub Hc (si & ei & t & Hi & H1 & H2 & H3 & H4 & H5).
  exists si, ei, t. split; [lia|]. split; [exact H1|]. split; [exact H2|].
  split; [exact H3|]. split; [auto|exact H5].
Qed.

Lemma separated_snoc (out : list Effect) (e : Effect) :
  separated out ->
  (forall e', In e' out ->
     start_time e' + time_span e' + (3 # 10) < start_time e) ->
  separated (out ++ [e]).
Proof.
  intros Hsep Hnew j k ej ek Hjk Hj Hk.
  assert (Hklen : (k < length (out ++ [e]))%nat)
    by (apply nth_error_Some; congruence).
  rewrite length_app in Hklen. simpl in Hklen.
  rewrite nth_error_app1 in Hj by lia.
  destruct (Nat.lt_ge_cases k (length out)) as [Hlt|Hge].
  - rewrite nth_error_app1 in Hk by lia. apply (Hsep j k); assumption.
  - rewrite nth_error_app2 in Hk by lia.
    replace (k - length out)%nat with 0%nat in Hk by lia.
    simpl in Hk. inversion Hk; subst.
    apply Hnew. eapply nth_error_In; eauto.
Qed.

Lemma beatnet_inv_init (rng entropy : Tape) :
  beatnet_inv (init existing0 rng entropy).
Proof.
  split; [auto|]. split.
  - intros e [].
  - intros _ j k ej ek _ Hj. destruct j; discriminate.
Qed.

Lemma beatnet_inv_step (st : state) :
  beatnet_inv st -> (i st < length beats)%nat ->
  exists st', body beats downbeats st = Ret st' /\ beatnet_inv st'
              /\ (i st < i st')%nat.
Proof.
  intros (Hsub & Hok & Hsep) Hlt.
  destruct (nth_error beats (i st)) as [bt|] eqn:Hbt.
  2:{ apply nth_error_None in Hbt. lia. }
  destruct (body_cases beats downbeats st Hbt)
    as [Hskip|(st' & end_idx & end_time & e & Hb & Hpl & Hs & Hd & _ & Hkind
               & Hgap & Hwin & Hn & Hacc)].
  - exists (skipped st). split; [exact Hskip|]. split; [|simpl; lia].
    split; [exact Hsub|]. split; [|exact Hsep].
    intros e He. simpl.
    apply beatnet_effect_ok_mono with (ex := existing_effects st) (c := i st);
      auto; lia.
  - exists st'. split; [exact Hb|].
    destruct Hpl as (Hi' & _ & Hex' & Hnew').
    destruct Hwin as (Hw1 & Hw2 & Hw3).
    destruct Hacc as (Hmin & Hmax & Hov).
    assert (Hsub' : forall x, In x (existing_effects st) ->
                              In x (existing_effects st')).
    { intros x Hx. rewrite Hex'. apply In_sort. apply in_or_app. auto. }
    split; [|lia].
    split; [auto|]. split.
    + intros e' He'. rewrite Hnew' in He'. apply in_app_or in He'.
      destruct He' as [He'|[<-|[]]].
      * apply beatnet_effect_ok_mono with (ex := existing_effects st) (c := i st);
          auto; lia.
      * exists (i st), end_idx, end_time. rewrite Hs.
        split; [lia|]. split; [exact Hbt|]. split; [exact Hn|].
        split; [exact Hd|].
        split; [rewrite Hex', <- Hs; apply In_sort, in_or_app; simpl; auto|].
        split; [eapply is_gap_subset; eauto|].
        split; [eapply overlaps_subset; eauto|].
        rewrite Hd. auto.
    + intros Hinc. rewrite Hnew'. apply separated_snoc; [auto|].
      intros e' He'.
      destruct (Hok e' He')
        as (si & ei & t' & Hi & H1 & H2 & H3 & H4 & _ & _ & H7 & _).
      pose proof (min_of_pos (mem (start_time e') downbeats)) as Hpos.
      assert (Hle : t' <= bt).
      { apply (@increasing_nth_le beats Hinc ei (i st)); auto. lia. }
      rewrite is_gap_true in Hgap. specialize (Hgap _ _ H4).
      rewrite Hs, H3. rewrite H3 in H7.
      destruct (Qlt_le_dec (t' + (3 # 10)) bt) as [Hgt|Hngt]; [lra|].
      exfalso. apply Hgap. split; lra.
Qed.

Lemma beatnet_schedule_inv (rng entropy : Tape) :
  exists st,
    schedule beats downbeats existing0 rng entropy = Some (Ret st)
    /\ beatnet_inv st.
Proof.
  destruct (@beatnet_loop_inv beats downbeats beatnet_inv beatnet_inv_step
              (length beats) (init existing0 rng entropy)
              (beatnet_inv_init rng entropy))
    as (st & Hl & Hinv & _); [simpl; lia|].
  exists st. split; assumption.
Qed.

End BeatnetInvariant.

(** ** The beat-quantized pass of [add_waveform_effects.py] *)

Section WaveformFacts.
Import Waveform.
Variable beats : list Q.
Variable downbeats : list Q.
Variable strong_beats : list Q.
Variable existing : list interval.

Local Abbreviation planned_ok :=
  (planned_ok beats downbeats strong_beats existing).
Local Abbreviation waveform_inv :=
  (waveform_inv beats downbeats strong_beats existing).

Lemma choose_type_spec (isd iss : bool) (d : Q) (r : Tape) :
  In (fst (choose_type isd iss d r)) (eligible (salience isd iss))
  /\ (fst (choose_type isd iss d r) = Pulse ->
      isd = false /\ (iss = true -> d < 2)).
Proof.
  unfold choose_type, salience.
  destruct isd; cbn [andb orb].
  - destruct (Qle_bool 4 d).
    + pose proof (choice_In r Spiral [Butterfly]) as H.
      destruct (choice r Spiral [Butterfly]) as [k r']. cbn [fst] in *.
      simpl in H. split.
      * simpl. intuition.
      * intros ->. intuition discriminate.
    + pose proof (choice_In r Wipe [Twinkle; Butterfly]) as H.
      destruct (choice r Wipe [Twinkle; Butterfly]) as [k r']. cbn [fst] in *.
      simpl in H. split.
      * simpl. intuition.
      * intros ->. intuition discriminate.
  - destruct iss; cbn [andb].
    + destruct (Qle_bool 2 d) eqn:E.
      * pose proof (choice_In r Wipe [Twinkle; Butterfly]) as H.
        destruct (choice r Wipe [Twinkle; Butterfly]) as [k r']. cbn [fst] in *.
        simpl in H. split.
        -- simpl. intuition.
        -- intros ->. intuition discriminate.
      * apply Qle_bool_false in E.
        pose proof (choice_In r Pulse [Pulse; Twinkle]) as H.
        destruct (choice r Pulse [Pulse; Twinkle]) as [k r']. cbn [fst] in *.
        simpl in H. split.
        -- simpl. intuition.
        -- intros _. auto.
    + cbn. split; [auto|]. intros _. split; [reflexivity|discriminate].
Qed.

Lemma waveform_body_cases (st : state) (beat_time : Q) :
  nth_error beats (beat_idx st) = Some beat_time ->
  body beats downbeats strong_beats existing st = Ret (wskipped st)
  \/ exists st' end_idx p,
       body beats downbeats strong_beats existing st = Ret st'
       /\ beat_idx st' = (end_idx + 1)%nat
       /\ effects_to_add st' = effects_to_add st ++ [p]
       /\ start_time p = beat_time
       /\ in_window (beat_idx st) beats end_idx
       /\ planned_ok (end_idx + 1) p
       /\ nth_error beats end_idx = Some (end_time p).
Proof.
  intros Hbt. unfold body. rewrite Hbt.
  destruct (is_gap beat_time existing (3 # 10)) eqn:Egap; [|left; reflexivity].
  unfold find_end_beat. rewrite Hbt.
  set (isd := mem beat_time downbeats).
  set (iss := mem beat_time strong_beats).
  destruct (window isd iss (1 # 2) 10) as [mn mx] eqn:Ewin.
  destruct (scan_lookahead_spec beat_time beats existing mn mx (beat_idx st))
    as [r [Hr Hspec]].
  rewrite Hr.
  destruct r as [[[end_idx end_time] d]|]; [|left; reflexivity].
  right. simpl in Hspec.
  destruct Hspec as (Hk & Hn & Hd & Hacc & _).
  pose proof (choose_type_spec isd iss d (rng st)) as [Hel Hpulse].
  destruct (choose_type isd iss d (rng st)) as [et rng1]. cbn [fst] in *.
  destruct (choice rng1 Red (tl COLORS)) as [c rng2].
  eexists. exists end_idx.
  exists (mkPlanned beat_time end_time d et c isd iss).
  split; [reflexivity|]. cbn.
  split; [reflexivity|]. split; [reflexivity|]. split; [reflexivity|].
  split; [unfold in_window; lia|]. split; [|exact Hn].
  exists (beat_idx st), end_idx. cbn. rewrite Ewin. cbn [fst snd].
  split; [lia|]. split; [exact Hbt|]. split; [exact Hn|]. split; [exact Hd|].
  split; [reflexivity|]. split; [reflexivity|]. split; [exact Egap|].
  split; [exact Hacc|]. split; [exact Hel|]. subst d. exact Hpulse.
Qed.

Lemma planned_ok_mono (c c' : nat) (p : Planned) :
  (c <= c')%nat -> planned_ok c p -> planned_ok c' p.
Proof.
  intros Hc (si & ei & Hi & H). exists si, ei. split; [lia|exact H].
Qed.

Lemma in_sequence_snoc (out : list Planned) (p : Planned) :
  in_sequence out ->
  (forall p', In p' out -> end_time p' < start_time p) ->
  in_sequence (out ++ [p]).
Proof.
  intros Hseq Hnew j k pj pk Hjk Hj Hk.
  assert (Hklen : (k < length (out ++ [p]))%nat)
    by (apply nth_error_Some; congruence).
  rewrite length_app in Hklen. simpl in Hklen.
  rewrite nth_error_app1 in Hj by lia.
  destruct (Nat.lt_ge_cases k (length out)) as [Hlt|Hge].
  - rewrite nth_error_app1 in Hk by lia. apply (Hseq j k); assumption.
  - rewrite nth_error_app2 in Hk by lia.
    replace (k - length out)%nat with 0%nat in Hk by lia.
    simpl in Hk. inversion Hk; subst.
    apply Hnew. eapply nth_error_In; eauto.
Qed.

Lemma waveform_loop_inv (P : state -> Prop) :
  (forall st, P st -> (beat_idx st < length beats)%nat ->
     exists st', body beats downbeats strong_beats existing st = Ret st'
                 /\ P st' /\ (beat_idx st < beat_idx st')%nat) ->
  forall fuel st, P st -> (length beats - beat_idx st <= fuel)%nat ->
    exists st', loop beats downbeats strong_beats existing fuel st = Some (Ret st')
                /\ P st' /\ (length beats <= beat_idx st')%nat.
Proof.
  intros Hstep. induction fuel as [|fuel IH]; intros st HP Hfuel.
  - exists st. simpl.
    destruct (Nat.leb_spec (length beats) (beat_idx st)); [auto|lia].
  - simpl. destruct (Nat.leb_spec (length beats) (beat_idx st)) as [Hdone|Hlt].
    + exists st. auto.
    + destruct (Hstep st HP Hlt) as (st' & Hb & HP' & Hadv).
      rewrite Hb. apply IH; [exact HP'|lia].
Qed.

Lemma waveform_inv_step (st : state) :
  waveform_inv st -> (beat_idx st < length beats)%nat ->
  exists st', body beats downbeats strong_beats existing st = Ret st'
              /\ waveform_inv st' /\ (beat_idx st < beat_idx st')%nat.
Proof.
  intros (Hok & Hseq) Hlt.
  destruct (nth_error beats (beat_idx st)) as [bt|] eqn:Hbt.
  2:{ apply nth_error_None in Hbt. lia. }
  destruct (waveform_body_cases st Hbt)
    as [Hskip|(st' & end_idx & p & Hb & Hi' & Hnew' & Hs & Hwin & Hp & Hn)].
  - exists (wskipped st). split; [exact Hskip|]. split; [|simpl; lia].
    split; [|exact Hseq]. intros p Hp. simpl.
    apply planned_ok_mono with (c := beat_idx st); auto; lia.
  - exists st'. split; [exact Hb|].
    destruct Hwin as (Hw1 & Hw2 & Hw3).
    split; [|lia]. split.
    + intros p' Hp'. rewrite Hnew' in Hp'. apply in_app_or in Hp'.
      rewrite Hi'.
      destruct Hp' as [Hp'|[<-|[]]]; [|exact Hp].
      apply planned_ok_mono with (c := beat_idx st); auto; lia.
    + intros Hinc. rewrite Hnew'. apply in_sequence_snoc; [auto|].
      intros p' Hp'.
      destruct (Hok p' Hp') as (si & ei & Hi & _ & H2 & _).
      rewrite Hs.
      apply (@increasing_nth beats Hinc ei (beat_idx st)); auto. lia.
Qed.

Lemma waveform_schedule_inv (r : Tape) :
  exists st,
    schedule beats downbeats strong_beats existing r = Some (Ret st)
    /\ waveform_inv st.
Proof.
  destruct (@waveform_loop_inv waveform_inv waveform_inv_step
              (length beats) (init r))
    as (st & Hl & Hinv & _).
  - split; [intros p []|]. intros _ j k pj pk _ Hj. destruct j; discriminate.
  - simpl; lia.
  - exists st. split; assumption.
Qed.

End WaveformFacts.

(** ** Decoded intervals are well formed *)

Lemma int_of_acc_nonneg (ds : list ascii) (acc : Z) :
  (0 <= acc)%Z ->
  (0 <= fold_left (fun a c => (10 * a + digit_val c)%Z) ds acc)%Z.
Proof.
  revert acc. induction ds as [|c ds IH]; intros acc H; cbn [fold_left];
    [exact H|].
  apply IH. unfold digit_val.
  pose proof (Nat2Z.is_nonneg (nat_of_ascii c - 48)). lia.
Qed.

Lemma int_of_nonneg (ds : list ascii) : (0 <= int_of ds)%Z.
Proof. apply int_of_acc_nonneg. lia. Qed.

Lemma inject_Z_nonneg (z : Z) : (0 <= z)%Z -> 0 <= inject_Z z.
Proof. intro H. unfold Qle. simpl. lia. Qed.

Lemma float_of_nonneg (ds fs : list ascii) : 0 <= float_of ds fs.
Proof.
  unfold float_of.
  pose proof (inject_Z_nonneg (int_of_nonneg ds)) as H1.
  assert (H2 : 0 <= int_of fs # Pos.pow 10 (Pos.of_nat (length fs))).
  { unfold Qle. simpl. pose proof (int_of_nonneg fs). lia. }
  lra.
Qed.

Lemma parse_duration_nonneg (dur_str : string) : 0 <= parse_duration dur_str.
Proof.
  unfold parse_duration.
  destruct (re_match dur_str) as [[g1 [ds fs]]|]; [|lra].
  pose proof (float_of_nonneg ds fs) as H1.
  assert (H2 : 0 <= inject_Z
                      (match g1 with Some ms => int_of ms | None => 0%Z end * 60)).
  { apply inject_Z_nonneg. destruct g1 as [ms|]; [|lia].
    pose proof (int_of_nonneg ms). lia. }
  cbv zeta. lra.
Qed.

Lemma load_existing_well_formed (matches : list (string * string)) :
  well_formed (load_existing matches).
Proof.
  intros s e Hin. unfold load_existing in Hin.
  apply (proj1 (In_sort _ _)) in Hin. apply in_map_iff in Hin.
  destruct Hin as ([a b] & Heq & _). cbn [fst snd] in Heq.
  inversion Heq; subst.
  pose proof (parse_duration_nonneg b). lra.
Qed.

(** ** The free-running pass of [add_beat_synced_effects.py] *)

Section BeatSyncedFacts.
Import BeatSynced.

Lemma gap_end_lower (t : Q) (ex : list interval) (end0 : Q) :
  well_formed ex -> is_gap t ex (3 # 10) = true ->
  t + (2 # 10) < end0 ->
  t + (2 # 10) < gap_end t end0 ex.
Proof.
  revert end0. induction ex as [|[s e] ex IH]; intros end0 Hwf Hgap H0; simpl.
  - exact H0.
  - assert (Hwf' : well_formed ex) by (intros s' e' Hin; apply Hwf; right; exact Hin).
    assert (Hgap' : is_gap t ex (3 # 10) = true).
    { eapply is_gap_subset; [|exact Hgap]. intros x Hx. right. exact Hx. }
    destruct (Qlt_bool t s && Qlt_bool s end0) eqn:E.
    + apply IH; auto.
      apply andb_true_iff in E. destruct E as [E1 _].
      apply Qlt_bool_iff in E1.
      rewrite is_gap_true in Hgap.
      specialize (Hgap s e (or_introl eq_refl)).
      specialize (Hwf s e (or_introl eq_refl)).
      destruct (Qlt_le_dec (t + (3 # 10)) s) as [Hlt|Hge]; [lra|].
      exfalso. apply Hgap. split; lra.
    + apply IH; auto.
Qed.

Lemma find_gap_duration_lower (t : Q) (ex : list interval) :
  well_formed ex -> is_gap t ex (3 # 10) = true ->
  2 # 10 < find_gap_duration t ex 10.
Proof.
  intros Hwf Hgap. unfold find_gap_duration.
  assert (H : t + (2 # 10) < gap_end t (t + 10) ex)
    by (apply gap_end_lower; auto; lra).
  pymin_split (gap_end t (t + 10) ex - t) 10; lra.
Qed.

Lemma place_duration (gap : Q) (r : Tape) :
  fst (fst (fst (place gap r))) = pymin gap (cap_of gap).
Proof.
  unfold place, cap_of.
  destruct (Qle_bool 5 gap).
  - destruct (choice r Spiral [Butterfly; Twinkle]) as [k r1].
    destruct k; try reflexivity.
    destruct (sample r1 COLORS 3); reflexivity.
  - destruct (Qle_bool (5 # 2) gap); [|reflexivity].
    destruct (choice r Wipe [Twinkle; Butterfly]) as [k r1].
    destruct k; reflexivity.
Qed.

Lemma capped_lower (gap : Q) : 2 # 10 < gap -> 2 # 10 < pymin gap (cap_of gap).
Proof.
  intro H. unfold cap_of.
  destruct (Qle_bool 5 gap); [|destruct (Qle_bool (5 # 2) gap)].
  - pymin_split gap 8; lra.
  - pymin_split gap 5; lra.
  - pymin_split gap 2; lra.
Qed.

Lemma skip_covered_spec (bound : Q) (l : list Q) (i0 : nat) :
  (i0 <= skip_covered bound l i0 <= i0 + length l)%nat
  /\ (forall j x, (j < skip_covered bound l i0 - i0)%nat ->
        nth_error l j = Some x -> x < bound)
  /\ (forall x, nth_error l (skip_covered bound l i0 - i0) = Some x ->
        bound <= x).
Proof.
  revert i0. induction l as [|b l IH]; intro i0; simpl.
  - split; [lia|]. split.
    + intros j x Hj. lia.
    + intros x Hx. destruct (i0 - i0)%nat; discriminate.
  - destruct (Qlt_bool b bound) eqn:E.
    + destruct (IH (i0 + 1)%nat) as (H1 & H2 & H3).
      split; [lia|]. split.
      * intros j x Hj Hx. destruct j as [|j].
        -- simpl in Hx. inversion Hx; subst. apply Qlt_bool_iff. exact E.
        -- simpl in Hx. apply (H2 j); [lia|exact Hx].
      * intros x Hx.
        replace (skip_covered bound l (i0 + 1) - i0)%nat
          with (S (skip_covered bound l (i0 + 1) - (i0 + 1)))%nat in Hx by lia.
        simpl in Hx. auto.
    + split; [lia|]. split.
      * intros j x Hj. lia.
      * intros x Hx. replace (i0 - i0)%nat with 0%nat in Hx by lia.
        simpl in Hx. inversion Hx; subst. apply Qlt_bool_false. exact E.
Qed.

Lemma skip_covered_first (bound b : Q) (l : list Q) (i0 : nat) :
  b < bound -> (i0 < skip_covered bound (b :: l) i0)%nat.
Proof.
  intro H. simpl. apply Qlt_bool_iff in H. rewrite H.
  pose proof (skip_covered_spec bound l (i0 + 1)). lia.
Qed.

Lemma nth_error_skipn (A : Type) (l : list A) (n j : nat) :
  nth_error (skipn n l) j = nth_error l (n + j).
Proof.
  revert l. induction n as [|n IH]; intro l; simpl; [reflexivity|].
  destruct l as [|a l]; [destruct j; reflexivity|apply IH].
Qed.

Variable drum_beats : list Q.
Variable existing : list interval.

Lemma beats_in_gaps_is_gap (k : nat) (t : Q) :
  nth_error (beats_in_gaps drum_beats existing) k = Some t ->
  is_gap t existing (3 # 10) = true.
Proof.
  intro H. apply nth_error_In in H. unfold beats_in_gaps in H.
  apply filter_In in H. tauto.
Qed.

(** Every iteration places an effect at the cursor beat. *)
Lemma synced_body_places (st : state) (beat_time : Q) :
  nth_error (beats_in_gaps drum_beats existing) (i st) = Some beat_time ->
  exists st' e,
    body drum_beats existing st = Ret st'
    /\ new_effects st' = new_effects st ++ [e]
    /\ start_time e = beat_time
    /\ time_span e
       = pymin (find_gap_duration beat_time existing 10)
               (cap_of (find_gap_duration beat_time existing 10))
    /\ i st' = skip_covered (beat_time + time_span e)
                 (skipn (i st) (beats_in_gaps drum_beats existing)) (i st).
Proof.
  intro Hbt. unfold body. rewrite Hbt.
  pose proof (place_duration (find_gap_duration beat_time existing 10) (rng st))
    as Hd.
  destruct (uuid4 (entropy st)) as [eid ent'].
  destruct (place (find_gap_duration beat_time existing 10) (rng st))
    as [[[d k] v] r'].
  cbn [fst] in Hd.
  eexists. eexists. split; [reflexivity|]. cbn.
  split; [reflexivity|]. split; [reflexivity|]. split; [exact Hd|reflexivity].
Qed.

Lemma synced_cursor_moves (st : state) (beat_time d : Q) :
  nth_error (beats_in_gaps drum_beats existing) (i st) = Some beat_time ->
  0 < d ->
  (i st < skip_covered (beat_time + d)
            (skipn (i st) (beats_in_gaps drum_beats existing)) (i st))%nat.
Proof.
  intros Hbt Hd.
  pose proof (nth_error_skipn (beats_in_gaps drum_beats existing) (i st) 0) as Hn.
  rewrite Nat.add_0_r, Hbt in Hn.
  destruct (skipn (i st) (beats_in_gaps drum_beats existing)) as [|b l];
    [discriminate|].
  simpl in Hn. inversion Hn; subst b.
  apply skip_covered_first. lra.
Qed.

End BeatSyncedFacts.

Section BeatSyncedInvariant.
Import BeatSynced.
Variable drum_beats : list Q.
Variable existing : list interval.

Lemma synced_loop_inv (P : state -> Prop) :
  (forall st, P st ->
     (i st < length (beats_in_gaps drum_beats existing))%nat ->
     exists st', body drum_beats existing st = Ret st' /\ P st'
                 /\ (i st < i st')%nat) ->
  forall fuel st, P st ->
    (length (beats_in_gaps drum_beats existing) - i st <= fuel)%nat ->
    exists st', loop drum_beats existing fuel st = Some (Ret st') /\ P st'
                /\ (length (beats_in_gaps drum_beats existing) <= i st')%nat.
Proof.
  intros Hstep. induction fuel as [|fuel IH]; intros st HP Hfuel.
  - exists st. simpl.
    destruct (Nat.leb_spec (length (beats_in_gaps drum_beats existing)) (i st));
      [auto|lia].
  - simpl.
    destruct (Nat.leb_spec (length (beats_in_gaps drum_beats existing)) (i st))
      as [Hdone|Hlt].
    + exists st. auto.
    + destruct (Hstep st HP Hlt) as (st' & Hb & HP' & Hadv).
      rewrite Hb. apply IH; [exact HP'|lia].
Qed.

Hypothesis Hwf : well_formed existing.

Lemma synced_inv_step (st : state) :
  synced_inv st -> (i st < length (beats_in_gaps drum_beats existing))%nat ->
  exists st', body drum_beats existing st = Ret st' /\ synced_inv st'
              /\ (i st < i st')%nat.
Proof.
  intros Hinv Hlt.
  destruct (nth_error (beats_in_gaps drum_beats existing) (i st)) as [bt|] eqn:Hbt.
  2:{ apply nth_error_None in Hbt. lia. }
  destruct (synced_body_places drum_beats existing st Hbt)
    as (st' & e & Hb & Hnew & Hs & Hd & Hi').
  assert (Hspan : 2 # 10 < time_span e).
  { rewrite Hd. apply capped_lower. apply find_gap_duration_lower; auto.
    eapply beats_in_gaps_is_gap; eauto. }
  exists st'. split; [exact Hb|]. split.
  - intros e' He'. rewrite Hnew in He'. apply in_app_or in He'.
    destruct He' as [He'|[<-|[]]]; auto.
  - rewrite Hi'. apply synced_cursor_moves; [exact Hbt|lra].
Qed.

Lemma synced_schedule_inv (r ent : Tape) :
  exists st,
    schedule drum_beats existing r ent = Some (Ret st) /\ synced_inv st.
Proof.
  destruct (@synced_loop_inv synced_inv synced_inv_step
              (length (beats_in_gaps drum_beats existing)) (init r ent))
    as (st & Hl & Hinv & _).
  - intros e [].
  - simpl; lia.
  - exists st. split; assumption.
Qed.

End BeatSyncedInvariant.

(** * The claims *)

Lemma overlaps_true (t : Q) (ex : list interval) :
  overlaps t ex = true <-> exists s e, In (s, e) ex /\ s <= t /\ t <= e.
Proof.
  induction ex as [|[s0 e0] ex IH]; simpl.
  - split; [discriminate|]. intros (s & e & [] & _).
  - destruct (Qle_bool s0 t && Qle_bool t e0) eqn:E.
    + split; [|reflexivity]. intros _.
      apply andb_true_iff in E. destruct E as [E1 E2].
      apply Qle_bool_iff in E1. apply Qle_bool_iff in E2.
      exists s0, e0. auto.
    + rewrite IH. split.
      * intros (s & e & Hin & H). exists s, e. auto.
      * intros (s & e & [Heq|Hin] & H1 & H2).
        -- inversion Heq; subst.
           apply Qle_bool_iff in H1. apply Qle_bool_iff in H2.
           rewrite H1, H2 in E. discriminate.
        -- exists s, e. auto.
Qed.

(** C2.  In beat-quantized mode the end-point resolver, called on a valid
    start index [s], returns normally and scans the candidates [s+1 ..]
    below [min (s+20) (len beats)] in order (the window of 20 beats that
    begins at the start beat).  A candidate whose duration
    [candidate - start] is below the minimum is skipped; the scan stops
    with no placement at the first candidate that is not below the minimum
    and exceeds the maximum; a candidate whose time lies inside an occupied
    interval, [ex_start <= t <= ex_end] with no margin, is skipped; the
    first remaining candidate is returned with its time and duration; when
    the window is exhausted the result is "no placement".  This holds of
    [find_end_beat] in [add_beatnet_effects.py] for any window and in
    [add_waveform_effects.py] for the window of the beat's tier. *)
Theorem find_end_beat_first_accepted_in_window :
  forall (beats : list Q) (existing : list interval)
         (start_beat_idx : nat) (start : Q),
    nth_error beats start_beat_idx = Some start ->
    (forall min_dur max_dur,
        exists r,
          Beatnet.find_end_beat start_beat_idx beats existing min_dur max_dur
          = Ret r
          /\ scan_result start beats existing min_dur max_dur
               (start_beat_idx + 1)
               (Nat.min (start_beat_idx + 20) (length beats)) r)
    /\ (forall is_downbeat is_strong min_duration max_duration,
           exists r,
             Waveform.find_end_beat start_beat_idx beats existing
               is_downbeat is_strong min_duration max_duration = Ret r
             /\ scan_result start beats existing
                  (fst (Waveform.window is_downbeat is_strong
                          min_duration max_duration))
                  (snd (Waveform.window is_downbeat is_strong
                          min_duration max_duration))
                  (start_beat_idx + 1)
                  (Nat.min (start_beat_idx + 20) (length beats)) r)
    /\ (forall t, overlaps t existing = true
                  <-> exists s e, In (s, e) existing /\ s <= t /\ t <= e).
Proof.
  intros beats existing s start Hs. split; [|split].
  - intros mn mx. unfold Beatnet.find_end_beat. rewrite Hs.
    apply scan_lookahead_spec.
  - intros isd iss mn mx. unfold Waveform.find_end_beat. rewrite Hs.
    destruct (Waveform.window isd iss mn mx) as [mn' mx']. cbn [fst snd].
    apply scan_lookahead_spec.
  - intro t. apply overlaps_true.
Qed.

Lemma find_end_beat_first_accepted_in_window_witness :
  exists r,
    Beatnet.find_end_beat 0 [0; 1 # 4; 1; 2] [(1, 3 # 2)] (1 # 2) 2 = Ret r
    /\ scan_result 0 [0; 1 # 4; 1; 2] [(1, 3 # 2)] (1 # 2) 2 1 4 r.
Proof.
  exact (proj1 (find_end_beat_first_accepted_in_window
                  [0; 1 # 4; 1; 2] [(1, 3 # 2)] 0 (eq_refl : nth_error [0; 1 # 4; 1; 2] 0 = Some 0))
               (1 # 2) 2).
Defined.

Lemma beatnet_body_advances (beats downbeats : list Q) (st : Beatnet.state) :
  (Beatnet.i st < length beats)%nat ->
  exists st', Beatnet.body beats downbeats st = Ret st'
              /\ (Beatnet.i st < Beatnet.i st')%nat.
Proof.
  intro Hlt.
  destruct (nth_error beats (Beatnet.i st)) as [bt|] eqn:Hbt.
  2:{ apply nth_error_None in Hbt. lia. }
  destruct (body_cases beats downbeats st Hbt)
    as [Hskip|(st' & end_idx & end_time & e & Hb & Hpl & _ & _ & _ & _
               & _ & Hwin & _)].
  - exists (skipped st). split; [exact Hskip|simpl; lia].
  - exists st'. split; [exact Hb|].
    destruct Hpl as (Hi' & _). destruct Hwin as (Hw & _). lia.
Qed.

Lemma waveform_body_advances (beats downbeats strong_beats : list Q)
  (existing : list interval) (st : Waveform.state) :
  (Waveform.beat_idx st < length beats)%nat ->
  exists st', Waveform.body beats downbeats strong_beats existing st = Ret st'
              /\ (Waveform.beat_idx st < Waveform.beat_idx st')%nat.
Proof.
  intro Hlt.
  destruct (nth_error beats (Waveform.beat_idx st)) as [bt|] eqn:Hbt.
  2:{ apply nth_error_None in Hbt. lia. }
  destruct (waveform_body_cases beats downbeats strong_beats existing st Hbt)
    as [Hskip|(st' & end_idx & p & Hb & Hi' & _ & _ & Hwin & _)].
  - exists (wskipped st). split; [exact Hskip|simpl; lia].
  - exists st'. split; [exact Hb|]. destruct Hwin as (Hw & _). lia.
Qed.

(** C8.  In the two beat-quantized schedulers every iteration of the main
    loop returns with a strictly larger cursor (one past the skipped beat,
    or one past the end beat of a placement), so from any state the loop
    ends within [len beats - cursor] iterations and the whole pass within
    [len beats]. *)
Theorem cursor_strictly_advances_and_pass_terminates :
  forall (beats downbeats strong_beats : list Q) (existing : list interval),
    (forall st, (Beatnet.i st < length beats)%nat ->
       exists st', Beatnet.body beats downbeats st = Ret st'
                   /\ (Beatnet.i st < Beatnet.i st')%nat)
    /\ (forall fuel st, (length beats - Beatnet.i st <= fuel)%nat ->
          exists st', Beatnet.loop beats downbeats fuel st = Some (Ret st')
                      /\ (length beats <= Beatnet.i st')%nat)
    /\ (forall rng entropy,
          exists st', Beatnet.schedule beats downbeats existing rng entropy
                      = Some (Ret st'))
    /\ (forall st, (Waveform.beat_idx st < length beats)%nat ->
          exists st',
            Waveform.body beats downbeats strong_beats existing st = Ret st'
            /\ (Waveform.beat_idx st < Waveform.beat_idx st')%nat)
    /\ (forall fuel st, (length beats - Waveform.beat_idx st <= fuel)%nat ->
          exists st',
            Waveform.loop beats downbeats strong_beats existing fuel st
            = Some (Ret st')
            /\ (length beats <= Waveform.beat_idx st')%nat)
    /\ (forall rng,
          exists st', Waveform.schedule beats downbeats strong_beats existing rng
                      = Some (Ret st')).
Proof.
  intros beats downbeats strong_beats existing.
  assert (HB : forall fuel st, (length beats - Beatnet.i st <= fuel)%nat ->
            exists st', Beatnet.loop beats downbeats fuel st = Some (Ret st')
                        /\ (length beats <= Beatnet.i st')%nat).
  { intros fuel st Hf.
    destruct (@beatnet_loop_inv beats downbeats (fun _ => True)) with
      (fuel := fuel) (st := st) as (st' & Hl & _ & Hdone); auto.
    - intros st0 _ Hlt.
      destruct (beatnet_body_advances beats downbeats st0 Hlt) as (st' & Hb & Ha).
      exists st'. auto.
    - exists st'. auto. }
  assert (HW : forall fuel st, (length beats - Waveform.beat_idx st <= fuel)%nat ->
            exists st',
              Waveform.loop beats downbeats strong_beats existing fuel st
              = Some (Ret st')
              /\ (length beats <= Waveform.beat_idx st')%nat).
  { intros fuel st Hf.
    destruct (@waveform_loop_inv beats downbeats strong_beats existing
                (fun _ => True)) with
      (fuel := fuel) (st := st) as (st' & Hl & _ & Hdone); auto.
    - intros st0 _ Hlt.
      destruct (waveform_body_advances beats downbeats strong_beats existing st0 Hlt)
        as (st' & Hb & Ha).
      exists st'. auto.
    - exists st'. auto. }
  split; [apply beatnet_body_advances|].
  split; [exact HB|].
  split.
  { intros r ent. unfold Beatnet.schedule.
    destruct (HB (length beats) (Beatnet.init existing r ent)) as (st' & Hl & _);
      [simpl; lia|].
    exists st'. exact Hl. }
  split; [apply waveform_body_advances|].
  split; [exact HW|].
  intros r. unfold Waveform.schedule.
  destruct (HW (length beats) (Waveform.init r)) as (st' & Hl & _);
    [simpl; lia|].
  exists st'. exact Hl.
Qed.

(** C4, as stated, fails.  Take beats at 2^-25 s and 1 + 2^-24 s, both
    binary64 numbers, whose difference 1 + 2^-25 is one too.  The pass of
    [add_beatnet_effects.py] places one effect from the first beat to the
    second and writes its start as [PT0.0000000S] and its time span as
    [PT1.0000000S]: the written start 0 is no beat, and the written end
    0 + 1 is neither a beat nor what the same function writes for the end
    beat, [PT1.0000001S].  Before any text is written the sum already
    misses the end beat in binary64: for beats at 0.2 s and 0.9 s
    [find_end_beat] returns the duration 0.9 - 0.2, and 0.2 plus that
    duration is below 0.9. *)
Lemma written_start_and_end_are_not_beats :
  exists st e,
    Beatnet.schedule [1 # 33554432; 16777217 # 16777216] [] [] tape0 tape0
    = Some (Ret st)
    /\ Beatnet.new_effects st = [e]
    /\ node_times e = ("PT0.0000000S", "PT1.0000000S")%string
    /\ mem (parse_duration (fst (node_times e)))
         [1 # 33554432; 16777217 # 16777216] = false
    /\ mem (parse_duration (fst (node_times e))
            + parse_duration (snd (node_times e)))
         [1 # 33554432; 16777217 # 16777216] = false
    /\ seconds_to_duration (16777217 # 16777216) = "PT1.0000001S"%string
    /\ Float64.find_end_beat 0 [Float64.decimal 2 10; Float64.decimal 9 10] []
         (Float64.decimal 5 10) (Float64.of_Z 2)
       = Ret (Some (1%nat, Float64.decimal 9 10,
                    Float64.sub (Float64.decimal 9 10) (Float64.decimal 2 10)))
    /\ Float64.ltb
         (Float64.add (Float64.decimal 2 10)
            (Float64.sub (Float64.decimal 9 10) (Float64.decimal 2 10)))
         (Float64.decimal 9 10) = true.
Proof.
  eexists. eexists.
  split; [vm_compute; reflexivity|].
  split; [reflexivity|].
  repeat split; vm_compute; reflexivity.
Qed.

(** C4, amended.  In beat-quantized mode every effect is scheduled from an
    input beat to a later input beat: the start time handed to
    [seconds_to_duration] is the time of a beat of the list, and the time
    span handed to it is the difference between the time of a beat further
    on in the list and that start time, as the script computes it (in
    [add_waveform_effects.py] the recorded [end_time] is that later
    beat). *)
Theorem effects_run_from_a_beat_to_a_later_beat :
  forall (beats downbeats strong_beats : list Q) (existing : list interval)
         (rng entropy : Tape),
    (exists st,
        Beatnet.schedule beats downbeats existing rng entropy = Some (Ret st)
        /\ forall e, In e (Beatnet.new_effects st) ->
             exists si ei end_time,
               (si < ei)%nat
               /\ nth_error beats si = Some (start_time e)
               /\ nth_error beats ei = Some end_time
               /\ time_span e = end_time - start_time e
               /\ node_times e
                  = (seconds_to_duration (start_time e),
                     seconds_to_duration (end_time - start_time e)))
    /\ (exists st,
           Waveform.schedule beats downbeats strong_beats existing rng
           = Some (Ret st)
           /\ forall p, In p (Waveform.effects_to_add st) ->
                exists si ei,
                  (si < ei)%nat
                  /\ nth_error beats si = Some (Waveform.start_time p)
                  /\ nth_error beats ei = Some (Waveform.end_time p)
                  /\ Waveform.duration p
                     = Waveform.end_time p - Waveform.start_time p).
Proof.
  intros beats downbeats strong_beats existing rng entropy. split.
  - destruct (beatnet_schedule_inv beats downbeats existing rng entropy)
      as (st & Hs & _ & Hok & _).
    exists st. split; [exact Hs|]. intros e He.
    destruct (Hok e He) as (si & ei & t & Hlt & H1 & H2 & H3 & _).
    exists si, ei, t. split; [lia|]. split; [exact H1|].
    split; [exact H2|]. split; [exact H3|].
    unfold node_times. rewrite H3. reflexivity.
  - destruct (waveform_schedule_inv beats downbeats strong_beats existing rng)
      as (st & Hs & Hok & _).
    exists st. split; [exact Hs|]. intros p Hp.
    destruct (Hok p Hp) as (si & ei & Hlt & H1 & H2 & H3 & _).
    exists si, ei. split; [lia|]. split; [exact H1|].
    split; [exact H2|exact H3].
Qed.

Lemma waveform_window_in_policy (isd iss : bool) :
  policy_range (salience isd iss)
    (fst (Waveform.window isd iss (1 # 2) 10))
    (snd (Waveform.window isd iss (1 # 2) 10))
  /\ snd (Waveform.window isd iss (1 # 2) 10) <= 10
  /\ (isd = false -> iss = false ->
      snd (Waveform.window isd iss (1 # 2) 10) <= 2).
Proof.
  destruct isd, iss; cbn; (split; [lra|split; [lra|]]);
    intros; try discriminate; lra.
Qed.

Lemma beatnet_tier_in_policy (isd : bool) :
  policy_range (salience isd false) (min_of isd) (max_of isd)
  /\ kinds_of isd = eligible (salience isd false)
  /\ (isd = false -> max_of isd <= 2).
Proof.
  destruct isd; cbn; (split; [lra|split; [reflexivity|]]);
    intros; try discriminate; lra.
Qed.

(** C3.  Every emitted effect's duration lies in the [min, max] window of
    the salience tier of its start beat (downbeat before strong before
    normal), the bounds of that window lie in the ranges the duration
    policy gives for the tier (downbeat: min in 1.0-2.0, max in 8-10;
    strong: min in 0.5-0.7, max in 2-4; normal: min in 0.1-0.5, max at
    most 2.0), the effect's kind is one of the tier's eligible kinds, a
    Pulse lasts at most 2 s and no effect more than 10 s.  Shown for the
    three tiers of [add_waveform_effects.py] and for the two tiers
    (downbeat, normal) of [add_beatnet_effects.py]. *)
Theorem durations_within_tier_window :
  forall (beats downbeats strong_beats : list Q) (existing : list interval)
         (rng entropy : Tape),
    (exists st,
        Waveform.schedule beats downbeats strong_beats existing rng
        = Some (Ret st)
        /\ forall p, In p (Waveform.effects_to_add st) ->
             let isd := mem (Waveform.start_time p) downbeats in
             let iss := mem (Waveform.start_time p) strong_beats in
             let w := Waveform.window isd iss (1 # 2) 10 in
             policy_range (salience isd iss) (fst w) (snd w)
             /\ fst w <= Waveform.duration p
             /\ Waveform.duration p <= snd w
             /\ In (Waveform.effect_type p) (eligible (salience isd iss))
             /\ (Waveform.effect_type p = Pulse -> Waveform.duration p <= 2)
             /\ Waveform.duration p <= 10)
    /\ (exists st,
           Beatnet.schedule beats downbeats existing rng entropy = Some (Ret st)
           /\ forall e, In e (Beatnet.new_effects st) ->
                let isd := mem (start_time e) downbeats in
                policy_range (salience isd false) (min_of isd) (max_of isd)
                /\ min_of isd <= time_span e
                /\ time_span e <= max_of isd
                /\ In (effect_type e) (eligible (salience isd false))
                /\ (effect_type e = Pulse -> time_span e <= 2)
                /\ time_span e <= 10).
Proof.
  intros beats downbeats strong_beats existing rng entropy. split.
  - destruct (waveform_schedule_inv beats downbeats strong_beats existing rng)
      as (st & Hs & Hok & _).
    exists st. split; [exact Hs|]. intros p Hp.
    destruct (Hok p Hp)
      as (si & ei & _ & _ & _ & Hd & Hisd & Hiss & _ & Hacc & Hel & Hpulse).
    rewrite <- Hisd, <- Hiss. cbv zeta.
    destruct Hacc as (Hmin & Hmax & _). rewrite <- Hd in Hmin, Hmax.
    destruct (waveform_window_in_policy (Waveform.is_downbeat p)
                (Waveform.is_strong p)) as (Hpol & H10 & Hnorm).
    split; [exact Hpol|]. split; [exact Hmin|]. split; [exact Hmax|].
    split; [exact Hel|]. split; [|lra].
    intro Hk. destruct (Hpulse Hk) as [Hnd Hstr].
    destruct (Waveform.is_strong p) eqn:Es.
    + apply Qlt_le_weak. auto.
    + specialize (Hnorm Hnd eq_refl). rewrite Hnd in *. lra.
  - destruct (beatnet_schedule_inv beats downbeats existing rng entropy)
      as (st & Hs & _ & Hok & _).
    exists st. split; [exact Hs|]. intros e He.
    destruct (Hok e He)
      as (si & ei & t & _ & _ & _ & _ & _ & _ & _ & Hmin & Hmax & Hk).
    cbv zeta.
    destruct (beatnet_tier_in_policy (mem (start_time e) downbeats))
      as (Hpol & Hkinds & Hnorm).
    split; [exact Hpol|]. split; [exact Hmin|]. split; [exact Hmax|].
    rewrite Hkinds in Hk. split; [exact Hk|].
    split.
    + intro Hp. rewrite Hp in Hk.
      destruct (mem (start_time e) downbeats) eqn:Ed.
      * simpl in Hk. intuition discriminate.
      * specialize (Hnorm eq_refl). lra.
    + destruct (mem (start_time e) downbeats); cbn in Hmax; lra.
Qed.








(** C5, as stated, fails.  With occupied intervals [0, 1] and [1.65, 3]
    the beat at 1.31 s passes the gap test and its free span is
    1.65 - 0.1 - 1.31 = 0.24 s, below the 0.5 s minimum the sibling scripts
    use for a regular beat ([min_of false]); the free-running pass still
    places a Pulse of 0.24 s there. *)
Lemma free_running_places_below_tier_minimum :
  exists st e,
    BeatSynced.schedule [131 # 100] [(0, 1); (33 # 20, 3)] tape0 tape0
    = Some (Ret st)
    /\ BeatSynced.new_effects st = [e]
    /\ start_time e = 131 # 100
    /\ effect_type e = Pulse
    /\ Qeq_bool (time_span e) (24 # 100) = true
    /\ Qlt_bool
         (BeatSynced.find_gap_duration (131 # 100) [(0, 1); (33 # 20, 3)] 10)
         (min_of false) = true.
Proof.
  eexists. eexists.
  split; [vm_compute; reflexivity|].
  split; [reflexivity|]. repeat split; reflexivity.
Qed.

(** C5, amended.  The free-running scheduler tests no tier minimum: at
    every gap beat the cursor reaches, the iteration returns having placed
    one effect that starts at that beat and lasts the free span capped at
    8 s (span of 5 s or more), 5 s (span of 2.5 s or more) or 2 s. *)
Theorem free_running_places_at_every_cursor_beat :
  forall (drum_beats : list Q) (existing : list interval)
         (st : BeatSynced.state) (beat_time : Q),
    nth_error (BeatSynced.beats_in_gaps drum_beats existing) (BeatSynced.i st)
    = Some beat_time ->
    exists st' e,
      BeatSynced.body drum_beats existing st = Ret st'
      /\ BeatSynced.new_effects st' = BeatSynced.new_effects st ++ [e]
      /\ start_time e = beat_time
      /\ time_span e
         = pymin (BeatSynced.find_gap_duration beat_time existing 10)
                 (cap_of (BeatSynced.find_gap_duration beat_time existing 10)).
Proof.
  intros drum_beats existing st bt Hbt.
  destruct (synced_body_places drum_beats existing st Hbt)
    as (st' & e & Hb & Hnew & Hs & Hd & _).
  exists st', e. split; [exact Hb|]. split; [exact Hnew|].
  split; [exact Hs|exact Hd].
Qed.

Lemma free_running_places_at_every_cursor_beat_witness :
  exists st' e,
    BeatSynced.body [131 # 100] [(0, 1); (33 # 20, 3)]
      (BeatSynced.init tape0 tape0) = Ret st'
    /\ BeatSynced.new_effects st' = [e]
    /\ start_time e = 131 # 100.
Proof.
  destruct (free_running_places_at_every_cursor_beat
              [131 # 100] [(0, 1); (33 # 20, 3)] (BeatSynced.init tape0 tape0)
              (eq_refl : nth_error
                           (BeatSynced.beats_in_gaps [131 # 100]
                              [(0, 1); (33 # 20, 3)])
                           (BeatSynced.i (BeatSynced.init tape0 tape0))
                         = Some (131 # 100)))
    as (st' & e & H1 & H2 & H3 & _).
  exists st', e. split; [exact H1|]. split; [exact H2|exact H3].
Defined.

(** ** Where the cursor lands after a placement *)

Lemma increasing_cons (a : Q) (r : list Q) :
  (forall y, In y r -> a < y) -> increasing r = true ->
  increasing (a :: r) = true.
Proof.
  intros Ha Hr. destruct r as [|b r]; [reflexivity|].
  change (Qlt_bool a b && increasing (b :: r) = true).
  rewrite Hr, andb_true_r.
  apply Qlt_bool_iff. apply Ha. left. reflexivity.
Qed.

Lemma increasing_filter (f : Q -> bool) (l : list Q) :
  increasing l = true -> increasing (filter f l) = true.
Proof.
  induction l as [|a r IH]; intro H; [reflexivity|].
  pose proof (increasing_tail _ _ H) as Hr.
  cbn [filter]. destruct (f a); [|auto].
  apply increasing_cons; [|auto].
  intros y Hy. apply filter_In in Hy.
  eapply increasing_head; [exact H|tauto].
Qed.

Lemma snoc_not_same (A : Type) (l : list A) (x : A) : l <> l ++ [x].
Proof.
  intro H. apply (f_equal (@length A)) in H.
  rewrite length_app in H. simpl in H. lia.
Qed.



Lemma synced_cursor_after_placement (drum_beats : list Q)
  (existing : list interval) (st st' : BeatSynced.state) (e : Effect) :
  increasing drum_beats = true ->
  (BeatSynced.i st
   < length (BeatSynced.beats_in_gaps drum_beats existing))%nat ->
  BeatSynced.body drum_beats existing st = Ret st' ->
  BeatSynced.new_effects st' = BeatSynced.new_effects st ++ [e] ->
  forall j x, (BeatSynced.i st <= j)%nat ->
    nth_error (BeatSynced.beats_in_gaps drum_beats existing) j = Some x ->
    ((j < BeatSynced.i st')%nat <-> x < start_time e + time_span e).
Proof.
  intros Hinc Hlt Hb Hnew j x Hij Hj.
  set (big := BeatSynced.beats_in_gaps drum_beats existing) in *.
  assert (Hbig : increasing big = true) by (apply increasing_filter; exact Hinc).
  destruct (nth_error big (BeatSynced.i st)) as [bt|] eqn:Hbt.
  2:{ apply nth_error_None in Hbt. lia. }
  destruct (synced_body_places drum_beats existing st Hbt)
    as (st'' & e' & Hb' & Hnew' & Hs & _ & Hi').
  rewrite Hb in Hb'. inversion Hb'; subst st''.
  rewrite Hnew in Hnew'. apply app_inj_tail in Hnew'. destruct Hnew' as [_ <-].
  fold big in Hi'. rewrite <- Hs in Hi'.
  destruct (skip_covered_spec (start_time e + time_span e)
              (skipn (BeatSynced.i st) big) (BeatSynced.i st))
    as (Hrange & Hbelow & Hat).
  rewrite <- Hi' in Hrange, Hbelow, Hat.
  split.
  - intro Hjk. apply (Hbelow (j - BeatSynced.i st)%nat); [lia|].
    rewrite nth_error_skipn.
    replace (BeatSynced.i st + (j - BeatSynced.i st))%nat with j by lia.
    exact Hj.
  - intro Hx.
    destruct (Nat.lt_ge_cases j (BeatSynced.i st')) as [Hjk|Hjk]; [exact Hjk|].
    exfalso.
    destruct (nth_error big (BeatSynced.i st')) as [y|] eqn:Hy.
    2:{ apply nth_error_None in Hy.
        assert (j < length big)%nat by (apply nth_error_Some; congruence). lia. }
    assert (Hby : start_time e + time_span e <= y).
    { apply Hat. rewrite nth_error_skipn.
      replace (BeatSynced.i st + (BeatSynced.i st' - BeatSynced.i st))%nat
        with (BeatSynced.i st') by lia.
      exact Hy. }
    assert (y <= x)
      by (apply (@increasing_nth_le big Hbig (BeatSynced.i st') j); auto).
    lra.
Qed.




(** ** What does not depend on the random draws *)

Lemma beatnet_body_timing (beats downbeats : list Q) (st1 st2 : Beatnet.state) :
  same_timing st1 st2 ->
  match Beatnet.body beats downbeats st1, Beatnet.body beats downbeats st2 with
  | Ret a, Ret b => same_timing a b
  | Raise_IndexError, Raise_IndexError => True
  | _, _ => False
  end.
Proof.
  destruct st1 as [i1 c1 ex1 n1 r1 e1], st2 as [i2 c2 ex2 n2 r2 e2].
  unfold same_timing. cbn. intros (<- & <- & <- & Hm).
  unfold Beatnet.body.
  cbn [Beatnet.i Beatnet.color_idx Beatnet.existing_effects
       Beatnet.new_effects Beatnet.rng Beatnet.entropy].
  destruct (nth_error beats i1) as [bt|]; [|exact I].
  destruct (is_gap bt ex1 (3 # 10)); cbn [negb];
    [|repeat split; assumption].
  destruct (Beatnet.tier (mem bt downbeats)) as [[mx mn] [c0 cs]].
  destruct (Beatnet.find_end_beat i1 beats ex1 mn mx) as [[[[k t] d]|]|];
    [|repeat split; assumption|exact I].
  destruct (uuid4 e1), (uuid4 e2).
  destruct (choice r1 c0 cs) as [k1 r1'], (choice r2 c0 cs) as [k2 r2'].
  destruct (Beatnet.draw_variant k1 r1'), (Beatnet.draw_variant k2 r2').
  cbn [Beatnet.i Beatnet.color_idx Beatnet.existing_effects
       Beatnet.new_effects Beatnet.rng Beatnet.entropy].
  rewrite !map_app, Hm. repeat split.
Qed.

Lemma beatnet_loop_timing (beats downbeats : list Q) (fuel : nat) :
  forall st1 st2, same_timing st1 st2 ->
    match Beatnet.loop beats downbeats fuel st1,
          Beatnet.loop beats downbeats fuel st2 with
    | Some (Ret a), Some (Ret b) => same_timing a b
    | Some Raise_IndexError, Some Raise_IndexError => True
    | None, None => True
    | _, _ => False
    end.
Proof.
  induction fuel as [|fuel IH]; intros st1 st2 H; simpl;
    pose proof H as (Hi & _); rewrite <- Hi;
    destruct (length beats <=? Beatnet.i st1)%nat;
    try exact H; try exact I.
  pose proof (beatnet_body_timing beats downbeats H) as Hb.
  destruct (Beatnet.body beats downbeats st1) as [a|],
           (Beatnet.body beats downbeats st2) as [b|];
    try contradiction; [apply IH; exact Hb|exact I].
Qed.

Lemma waveform_body_plan (beats downbeats strong_beats : list Q)
  (existing : list interval) (st1 st2 : Waveform.state) :
  same_plan st1 st2 ->
  match Waveform.body beats downbeats strong_beats existing st1,
        Waveform.body beats downbeats strong_beats existing st2 with
  | Ret a, Ret b => same_plan a b
  | Raise_IndexError, Raise_IndexError => True
  | _, _ => False
  end.
Proof.
  destruct st1 as [i1 n1 r1], st2 as [i2 n2 r2].
  unfold same_plan. cbn. intros (<- & Hm).
  unfold Waveform.body.
  cbn [Waveform.beat_idx Waveform.effects_to_add Waveform.rng].
  destruct (nth_error beats i1) as [bt|]; [|exact I].
  destruct (is_gap bt existing (3 # 10)); [|split; [reflexivity|assumption]].
  destruct (Waveform.find_end_beat i1 beats existing (mem bt downbeats)
              (mem bt strong_beats) (1 # 2) 10) as [[[[k t] d]|]|];
    [|split; [reflexivity|assumption]|exact I].
  destruct (Waveform.choose_type (mem bt downbeats) (mem bt strong_beats) d r1)
    as [k1 r1'].
  destruct (Waveform.choose_type (mem bt downbeats) (mem bt strong_beats) d r2)
    as [k2 r2'].
  destruct (choice r1' Red (tl COLORS)), (choice r2' Red (tl COLORS)).
  cbn [Waveform.beat_idx Waveform.effects_to_add Waveform.rng].
  rewrite !map_app, Hm. split; reflexivity.
Qed.

Lemma waveform_loop_plan (beats downbeats strong_beats : list Q)
  (existing : list interval) (fuel : nat) :
  forall st1 st2, same_plan st1 st2 ->
    match Waveform.loop beats downbeats strong_beats existing fuel st1,
          Waveform.loop beats downbeats strong_beats existing fuel st2 with
    | Some (Ret a), Some (Ret b) => same_plan a b
    | Some Raise_IndexError, Some Raise_IndexError => True
    | None, None => True
    | _, _ => False
    end.
Proof.
  induction fuel as [|fuel IH]; intros st1 st2 H; simpl;
    pose proof H as (Hi & _); rewrite <- Hi;
    destruct (length beats <=? Waveform.beat_idx st1)%nat;
    try exact H; try exact I.
  pose proof (waveform_body_plan beats downbeats strong_beats existing H) as Hb.
  destruct (Waveform.body beats downbeats strong_beats existing st1) as [a|],
           (Waveform.body beats downbeats strong_beats existing st2) as [b|];
    try contradiction; [apply IH; exact Hb|exact I].
Qed.

(** C7, as stated, fails.  The scripts never seed anything: with the same
    beats, occupied list and [random] state, two runs whose operating-system
    entropy differs emit effects with different instance ids; and with the
    same entropy, two runs whose [random] state differs emit different
    kinds on a downbeat. *)
Lemma runs_differ_in_ids_and_kinds :
  exists st1 st2 st3,
    Beatnet.schedule [3; 5] [3] [] tape0 tape0 = Some (Ret st1)
    /\ Beatnet.schedule [3; 5] [3] [] tape0 tape1 = Some (Ret st2)
    /\ Beatnet.schedule [3; 5] [3] [] tape1 tape0 = Some (Ret st3)
    /\ map effect_id (Beatnet.new_effects st1) = [0%nat]
    /\ map effect_id (Beatnet.new_effects st2) = [1%nat]
    /\ map effect_type (Beatnet.new_effects st1) = [Spiral]
    /\ map effect_type (Beatnet.new_effects st3) = [Butterfly].
Proof.
  eexists. eexists. eexists.
  split; [vm_compute; reflexivity|].
  split; [vm_compute; reflexivity|].
  split; [vm_compute; reflexivity|].
  repeat split; reflexivity.
Qed.

(** C7, amended.  For identical beats, salience sets and occupied
    intervals, two runs return effect lists that agree on every start
    time and duration whatever the random draws and the entropy: in
    [add_beatnet_effects.py] also on the palette entry (taken in rotation),
    in [add_waveform_effects.py] also on the end time and the salience
    flags.  Instance ids, kinds, kind parameters and, in the second
    script, colours are functions of the draws. *)
Theorem placement_times_independent_of_random_draws :
  forall (beats downbeats strong_beats : list Q) (existing : list interval)
         (rng1 entropy1 rng2 entropy2 : Tape),
    (exists st1 st2,
        Beatnet.schedule beats downbeats existing rng1 entropy1 = Some (Ret st1)
        /\ Beatnet.schedule beats downbeats existing rng2 entropy2
           = Some (Ret st2)
        /\ map timing (Beatnet.new_effects st1)
           = map timing (Beatnet.new_effects st2))
    /\ (exists st1 st2,
           Waveform.schedule beats downbeats strong_beats existing rng1
           = Some (Ret st1)
           /\ Waveform.schedule beats downbeats strong_beats existing rng2
              = Some (Ret st2)
           /\ map planned_timing (Waveform.effects_to_add st1)
              = map planned_timing (Waveform.effects_to_add st2)).
Proof.
  intros beats downbeats strong_beats existing rng1 entropy1 rng2 entropy2.
  split.
  - destruct (beatnet_schedule_inv beats downbeats existing rng1 entropy1)
      as (st1 & H1 & _).
    destruct (beatnet_schedule_inv beats downbeats existing rng2 entropy2)
      as (st2 & H2 & _).
    exists st1, st2. split; [exact H1|]. split; [exact H2|].
    assert (Hrel : same_timing (Beatnet.init existing rng1 entropy1)
                     (Beatnet.init existing rng2 entropy2))
      by (repeat split; reflexivity).
    pose proof (beatnet_loop_timing beats downbeats (length beats) Hrel) as Hl.
    unfold Beatnet.schedule in H1, H2. rewrite H1, H2 in Hl. apply Hl.
  - destruct (waveform_schedule_inv beats downbeats strong_beats existing rng1)
      as (st1 & H1 & _).
    destruct (waveform_schedule_inv beats downbeats strong_beats existing rng2)
      as (st2 & H2 & _).
    exists st1, st2. split; [exact H1|]. split; [exact H2|].
    assert (Hrel : same_plan (Waveform.init rng1) (Waveform.init rng2))
      by (split; reflexivity).
    pose proof (waveform_loop_plan beats downbeats strong_beats existing
                  (length beats) Hrel) as Hl.
    unfold Waveform.schedule in H1, H2. rewrite H1, H2 in Hl. apply Hl.
Qed.

(** C9, as stated, fails.  Nothing in the scripts validates its input.  A
    time span that is not a duration decodes to 0 without an error, so the
    match [("PT1S", "oops")] becomes a zero-length occupied interval; the
    beat list [5; 3; 6] is not sorted; and the pass on these inputs still
    returns, with one effect. *)
Lemma malformed_input_is_scheduled :
  exists st e,
    parse_duration "oops" = 0
    /\ map (fun iv : interval => Qeq_bool (fst iv) (snd iv))
         (load_existing [("PT1S", "oops")]%string) = [true]
    /\ increasing [5; 3; 6] = false
    /\ Beatnet.schedule [5; 3; 6] []
         (load_existing [("PT1S", "oops")]%string) tape0 tape0
       = Some (Ret st)
    /\ Beatnet.new_effects st = [e]
    /\ start_time e = 5.
Proof.
  eexists. eexists.
  split; [reflexivity|]. split; [reflexivity|]. split; [reflexivity|].
  split; [vm_compute; reflexivity|]. split; reflexivity.
Qed.

(** C9, amended.  No input is rejected by a check.  [parse_duration]
    returns 0 for every string of ASCII characters that does not match the
    duration pattern, and the two beat-quantized passes run to completion
    and return an effect list for every beat list and every occupied list,
    sorted or not. *)
Theorem unmatched_text_and_unsorted_beats_are_accepted :
  (forall dur_str,
      ascii_only dur_str = true ->
      re_match dur_str = None -> parse_duration dur_str = 0)
  /\ (forall (beats downbeats strong_beats : list Q) (existing : list interval)
             (rng entropy : Tape),
         (exists st,
             Beatnet.schedule beats downbeats existing rng entropy
             = Some (Ret st))
         /\ (exists st,
                Waveform.schedule beats downbeats strong_beats existing rng
                = Some (Ret st))).
Proof.
  split.
  - intros dur_str _ H. unfold parse_duration. rewrite H. reflexivity.
  - intros beats downbeats strong_beats existing rng entropy. split.
    + destruct (beatnet_schedule_inv beats downbeats existing rng entropy)
        as (st & Hs & _).
      exists st. exact Hs.
    + destruct (waveform_schedule_inv beats downbeats strong_beats existing rng)
        as (st & Hs & _).
      exists st. exact Hs.
Qed.

Example parse_duration_minutes : parse_duration "PT1M30.5S" == 181 # 2.
Proof. vm_compute. reflexivity. Qed.

Example parse_duration_seconds : parse_duration "PT12.25S" == 49 # 4.
Proof. vm_compute. reflexivity. Qed.

Example parse_duration_prefix_only : parse_duration "PT2Sxyz" == 2.
Proof. vm_compute. reflexivity. Qed.

Example parse_duration_minutes_without_seconds : parse_duration "PT5M" = 0.
Proof. reflexivity. Qed.

(** * Further properties of the three scripts *)

(** ** Decimal digits *)

Lemma digit_char_spec (k : Z) :
  (0 <= k < 10)%Z ->
  is_digit (digit_char k) = true /\ digit_val (digit_char k) = k.
Proof.
  intro Hk. unfold is_digit, digit_val, digit_char.
  rewrite nat_ascii_embedding by lia.
  split.
  - apply andb_true_iff. split; apply Nat.leb_le; lia.
  - lia.
Qed.

Lemma int_of_acc (ds : list ascii) (acc : Z) :
  fold_left (fun a c => (10 * a + digit_val c)%Z) ds acc
  = (acc * 10 ^ Z.of_nat (length ds) + int_of ds)%Z.
Proof.
  unfold int_of. revert acc.
  induction ds as [|c ds IH]; intro acc; cbn [fold_left length].
  - change (10 ^ Z.of_nat 0)%Z with 1%Z. lia.
  - rewrite IH. rewrite (IH (10 * 0 + digit_val c)%Z).
    rewrite Nat2Z.inj_succ, Z.pow_succ_r by lia. ring.
Qed.

Lemma int_of_snoc (ds : list ascii) (c : ascii) :
  int_of (ds ++ [c]) = (int_of ds * 10 + digit_val c)%Z.
Proof.
  unfold int_of at 1. rewrite fold_left_app. cbn [fold_left].
  fold (int_of ds). ring.
Qed.

(** [str(n)] is a non-empty run of digits that [int] reads back as [n]. *)
Lemma digits_fuel_spec (fuel : nat) :
  forall n acc, (0 <= n < 2 ^ Z.of_nat fuel)%Z -> (0 < fuel)%nat ->
    exists ds, digits_fuel fuel n acc = ds ++ acc
               /\ ds <> [] /\ Forall (fun c => is_digit c = true) ds
               /\ int_of ds = n.
Proof.
  induction fuel as [|fuel IH]; intros n acc Hn Hf; [lia|].
  cbn [digits_fuel].
  assert (Hmod : (0 <= n mod 10 < 10)%Z) by (apply Z.mod_pos_bound; lia).
  destruct (digit_char_spec Hmod) as [Hd Hv].
  destruct (Z.ltb_spec n 10) as [Hlt|Hge].
  - exists [digit_char (n mod 10)].
    split; [reflexivity|]. split; [discriminate|].
    split; [constructor; [exact Hd|constructor]|].
    unfold int_of. cbn [fold_left]. rewrite Hv.
    rewrite Z.mod_small by lia. lia.
  - rewrite Nat2Z.inj_succ, Z.pow_succ_r in Hn by lia.
    assert (Hq : (0 <= n / 10 < 2 ^ Z.of_nat fuel)%Z).
    { split; [apply Z.div_pos; lia|].
      apply Z.div_lt_upper_bound; lia. }
    assert (Hf' : (0 < fuel)%nat).
    { destruct fuel; [|lia]. change (2 ^ Z.of_nat 0)%Z with 1%Z in Hq.
      assert (1 <= n / 10)%Z by (apply Z.div_le_lower_bound; lia). lia. }
    destruct (IH (n / 10)%Z (digit_char (n mod 10) :: acc) Hq Hf')
      as (ds & Heq & Hne & Hall & Hint).
    exists (ds ++ [digit_char (n mod 10)]).
    split; [rewrite Heq, <- app_assoc; reflexivity|].
    split; [destruct ds; discriminate|].
    split; [apply Forall_app; split; [exact Hall|constructor; [exact Hd|constructor]]|].
    rewrite int_of_snoc, Hint, Hv.
    rewrite (Z.div_mod n 10) at 3 by lia. ring.
Qed.

Lemma str_int_spec (n : Z) :
  (0 <= n)%Z ->
  str_int n <> [] /\ Forall (fun c => is_digit c = true) (str_int n)
  /\ int_of (str_int n) = n.
Proof.
  intro Hn. unfold str_int.
  destruct (@digits_fuel_spec (S (Z.to_nat (Z.log2 n))) n []) as (ds & Heq & H);
    [|lia|].
  - split; [exact Hn|].
    rewrite Nat2Z.inj_succ, Z2Nat.id by apply Z.log2_nonneg.
    destruct (Z.eq_dec n 0) as [->|Hne]; [reflexivity|].
    apply Z.log2_spec. lia.
  - rewrite Heq, app_nil_r. exact H.
Qed.

Lemma fixed_digits_spec (w : nat) :
  forall n, (0 <= n)%Z ->
    length (fixed_digits w n) = w
    /\ Forall (fun c => is_digit c = true) (fixed_digits w n)
    /\ int_of (fixed_digits w n) = (n mod 10 ^ Z.of_nat w)%Z.
Proof.
  induction w as [|w IH]; intros n Hn; cbn [fixed_digits].
  - split; [reflexivity|]. split; [constructor|].
    change (10 ^ Z.of_nat 0)%Z with 1%Z. rewrite Z.mod_1_r. reflexivity.
  - assert (Hmod : (0 <= n mod 10 < 10)%Z) by (apply Z.mod_pos_bound; lia).
    destruct (digit_char_spec Hmod) as [Hd Hv].
    destruct (IH (n / 10)%Z) as (Hl & Hall & Hint); [apply Z.div_pos; lia|].
    split; [rewrite length_app, Hl; simpl; lia|].
    split; [apply Forall_app; split; [exact Hall|constructor; [exact Hd|constructor]]|].
    rewrite int_of_snoc, Hint, Hv.
    rewrite Nat2Z.inj_succ, Z.pow_succ_r by lia.
    rewrite (Z.rem_mul_r n 10 (10 ^ Z.of_nat w)) by lia. ring.
Qed.

Lemma take_digits_run (ds : list ascii) (c : ascii) (rest : list ascii) :
  Forall (fun c => is_digit c = true) ds -> is_digit c = false ->
  take_digits (ds ++ c :: rest) = (ds, c :: rest).
Proof.
  intros Hall Hc. induction Hall as [|d ds Hd Hall IH]; cbn [app take_digits].
  - rewrite Hc. reflexivity.
  - rewrite Hd, IH. reflexivity.
Qed.

(** ** Encoding a duration and decoding it again *)

Lemma round_half_even_spec (y : Q) :
  0 <= y ->
  (0 <= round_half_even y)%Z
  /\ inject_Z (round_half_even y) - y <= 1 # 2
  /\ y - inject_Z (round_half_even y) <= 1 # 2.
Proof.
  intro Hy. unfold round_half_even.
  pose proof (Qfloor_le y) as Hlo. pose proof (Qlt_floor y) as Hhi.
  rewrite inject_Z_plus in Hhi. change (inject_Z 1) with 1 in Hhi.
  assert (Hf : (0 <= Qfloor y)%Z).
  { change 0%Z with (Qfloor 0). apply Qfloor_resp_le. exact Hy. }
  destruct (Qlt_bool (y - inject_Z (Qfloor y)) (1 # 2)) eqn:E1.
  { apply Qlt_bool_iff in E1. split; [exact Hf|]. split; lra. }
  apply Qlt_bool_false in E1.
  assert (Hup : (0 <= Qfloor y + 1)%Z
                /\ inject_Z (Qfloor y + 1) - y <= 1 # 2
                /\ y - inject_Z (Qfloor y + 1) <= 1 # 2).
  { rewrite inject_Z_plus. change (inject_Z 1) with 1.
    split; [lia|]. split; lra. }
  destruct (Qlt_bool (1 # 2) (y - inject_Z (Qfloor y))) eqn:E2; [exact Hup|].
  apply Qlt_bool_false in E2.
  destruct (Z.even (Qfloor y)); [|exact Hup].
  split; [exact Hf|]. split; lra.
Qed.

Lemma match_secs_format_7f (x : Q) (rest : list ascii) :
  0 <= x ->
  match_secs (format_7f x ++ "S"%char :: rest)
  = Some (str_int (round_half_even (Qabs x * 10000000) / 10000000),
          fixed_digits 7 (round_half_even (Qabs x * 10000000) mod 10000000)).
Proof.
  intro Hx. unfold format_7f.
  assert (Hs : Qlt_bool x 0 = false) by (apply Qlt_bool_false; exact Hx).
  rewrite Hs. cbn [app].
  set (n := round_half_even (Qabs x * 10000000)).
  assert (Hn : (0 <= n)%Z).
  { apply round_half_even_spec.
    pose proof (Qabs_nonneg x). nra. }
  destruct (@str_int_spec (n / 10000000)%Z) as (Hne & Hall & _);
    [apply Z.div_pos; lia|].
  destruct (@fixed_digits_spec 7 (n mod 10000000)%Z) as (Hl & Hall7 & _);
    [apply Z.mod_pos_bound; lia|].
  rewrite <- app_assoc. cbn [app].
  unfold match_secs.
  rewrite (take_digits_run _ _ Hall (eq_refl : is_digit "."%char = false)).
  destruct (str_int (n / 10000000)) as [|d ds]; [contradiction|].
  rewrite (take_digits_run _ rest Hall7 (eq_refl : is_digit "S"%char = false)).
  destruct (fixed_digits 7 (n mod 10000000)) as [|f fs]; [discriminate|].
  reflexivity.
Qed.

Lemma int_of_app (ds fs : list ascii) :
  int_of (ds ++ fs)
  = (int_of ds * 10 ^ Z.of_nat (length fs) + int_of fs)%Z.
Proof.
  unfold int_of at 1. rewrite fold_left_app.
  apply (int_of_acc fs (int_of ds)).
Qed.

(** The digits [.7f] writes, read without the point, are the rounded
    number of 1e-7 s units. *)
Lemma int_of_formatted (n : Z) :
  (0 <= n)%Z ->
  int_of (str_int (n / 10000000) ++ fixed_digits 7 (n mod 10000000)) = n
  /\ length (fixed_digits 7 (n mod 10000000)) = 7%nat.
Proof.
  intro Hn.
  destruct (@str_int_spec (n / 10000000)%Z) as (_ & _ & Hi);
    [apply Z.div_pos; lia|].
  destruct (@fixed_digits_spec 7 (n mod 10000000)%Z) as (Hl & _ & Hf);
    [apply Z.mod_pos_bound; lia|].
  split; [|exact Hl].
  rewrite int_of_app, Hi, Hf, Hl.
  change (10 ^ Z.of_nat 7)%Z with 10000000%Z.
  rewrite Z.mod_mod by lia.
  pose proof (Z.div_mod n 10000000 ltac:(lia)). lia.
Qed.

(** X1.  For a number of seconds from 0 up to 2^53, where the floor
    division and the remainder of the script are exact, the text
    [seconds_to_duration] writes is matched by the pattern of
    [parse_duration]: with a minutes group exactly when the value is 60 or
    more, with seven digits after the point, and denoting the value to the
    nearest 1e-7 s. *)
Theorem encoded_duration_matches_the_decoder_pattern :
  forall x : Q,
    0 <= x -> x < 9007199254740992 ->
    exists g1 ds fs,
      re_match (seconds_to_duration x) = Some (g1, (ds, fs))
      /\ (g1 = None <-> x < 60)
      /\ length fs = 7%nat
      /\ inject_Z (written_units g1 ds fs) - x * 10000000 <= 1 # 2
      /\ x * 10000000 - inject_Z (written_units g1 ds fs) <= 1 # 2.
Proof.
  intros x Hx _. unfold seconds_to_duration, re_match.
  destruct (Qlt_bool x 60) eqn:E60;
    rewrite list_ascii_of_string_of_list_ascii.
  - pose proof (match_secs_format_7f [] Hx) as Hm.
    set (n := round_half_even (Qabs x * 10000000)) in *.
    destruct (@round_half_even_spec (Qabs x * 10000000)) as (Hn & Hb1 & Hb2).
    { pose proof (Qabs_nonneg x). nra. }
    fold n in Hn, Hb1, Hb2.
    rewrite (Qabs_pos x Hx) in Hb1, Hb2.
    assert (Hmm : match_mins_secs (format_7f x ++ ["S"%char]) = None).
    { unfold match_mins_secs, format_7f.
      rewrite (proj2 (Qlt_bool_false x 0) Hx). cbn [app]. fold n.
      destruct (@str_int_spec (n / 10000000)%Z) as (Hne & Hall & _);
        [apply Z.div_pos; lia|].
      rewrite <- app_assoc. cbn [app].
      rewrite (take_digits_run _ _ Hall (eq_refl : is_digit "."%char = false)).
      destruct (str_int (n / 10000000)); [contradiction|reflexivity]. }
    rewrite Hmm, Hm.
    destruct (int_of_formatted Hn) as [Hint Hlen].
    eexists. eexists. eexists. split; [reflexivity|].
    apply Qlt_bool_iff in E60.
    split; [split; [intros _; exact E60|reflexivity]|].
    split; [exact Hlen|].
    unfold written_units. rewrite Hint, Z.mul_0_l, Z.add_0_l.
    split; assumption.
  - apply Qlt_bool_false in E60.
    set (mins := Qfloor (x / 60)).
    set (secs := x - inject_Z (60 * mins)).
    assert (Hmins : (0 <= mins)%Z).
    { change 0%Z with (Qfloor 0). apply Qfloor_resp_le.
      apply Qle_shift_div_l; lra. }
    assert (Hsecs : 0 <= secs).
    { unfold secs. rewrite inject_Z_mult. change (inject_Z 60) with 60.
      pose proof (Qfloor_le (x / 60)) as Hfl. fold mins in Hfl.
      unfold Qdiv in Hfl. change (/ 60) with (1 # 60) in Hfl. lra. }
    pose proof (match_secs_format_7f [] Hsecs) as Hm.
    set (n := round_half_even (Qabs secs * 10000000)) in *.
    destruct (@round_half_even_spec (Qabs secs * 10000000)) as (Hn & Hb1 & Hb2).
    { pose proof (Qabs_nonneg secs). nra. }
    fold n in Hn, Hb1, Hb2.
    rewrite (Qabs_pos secs Hsecs) in Hb1, Hb2.
    destruct (@str_int_spec mins Hmins) as (Hne & Hall & Hi).
    assert (Hmm : match_mins_secs
                    (str_int mins ++ "M"%char :: format_7f secs ++ ["S"%char])
                  = Some (str_int mins,
                          (str_int (n / 10000000),
                           fixed_digits 7 (n mod 10000000)))).
    { unfold match_mins_secs.
      rewrite (take_digits_run _ _ Hall (eq_refl : is_digit "M"%char = false)).
      destruct (str_int mins) as [|d ds]; [contradiction|].
      rewrite Hm. reflexivity. }
    rewrite Hmm.
    destruct (int_of_formatted Hn) as [Hint Hlen].
    eexists. eexists. eexists. split; [reflexivity|].
    split; [split; [discriminate|intro H; lra]|].
    split; [exact Hlen|].
    unfold written_units. rewrite Hint, Hi.
    rewrite inject_Z_plus, inject_Z_mult.
    change (inject_Z 600000000) with 600000000.
    unfold secs in Hb1, Hb2. rewrite inject_Z_mult in Hb1, Hb2.
    change (inject_Z 60) with 60 in Hb1, Hb2.
    split; lra.
Qed.

Lemma encoded_duration_matches_the_decoder_pattern_witness :
  0 <= 501 # 4 /\ 501 # 4 < 9007199254740992
  /\ exists g1 ds fs,
       re_match (seconds_to_duration (501 # 4)) = Some (g1, (ds, fs))
       /\ length fs = 7%nat.
Proof.
  split; [discriminate|]. split; [reflexivity|].
  destruct (@encoded_duration_matches_the_decoder_pattern (501 # 4)
              ltac:(discriminate) eq_refl)
    as (g1 & ds & fs & H1 & _ & H2 & _).
  exists g1, ds, fs. split; [exact H1|exact H2].
Defined.

(** X2.  A negative number of seconds is encoded with a minus sign after
    [PT], which the decoder's pattern does not admit: it reads back as 0. *)
Theorem negative_seconds_decode_to_zero :
  forall x : Q, x < 0 -> parse_duration (seconds_to_duration x) = 0.
Proof.
  intros x Hx. unfold seconds_to_duration.
  assert (H60 : Qlt_bool x 60 = true) by (apply Qlt_bool_iff; lra).
  rewrite H60. unfold parse_duration, re_match.
  rewrite list_ascii_of_string_of_list_ascii.
  unfold format_7f. rewrite (proj2 (Qlt_bool_iff x 0) Hx).
  reflexivity.
Qed.

Lemma negative_seconds_decode_to_zero_witness :
  - (3 # 2) < 0 /\ parse_duration (seconds_to_duration (- (3 # 2))) = 0.
Proof.
  split; [reflexivity|].
  apply negative_seconds_decode_to_zero. reflexivity.
Defined.

(** ** The decoder reads a prefix *)

Lemma take_digits_app (l tail ds r : list ascii) (c : ascii) :
  take_digits l = (ds, c :: r) ->
  take_digits (l ++ tail) = (ds, c :: r ++ tail).
Proof.
  revert ds. induction l as [|a l IH]; intros ds H; cbn [take_digits] in H.
  - discriminate.
  - cbn [app take_digits]. destruct (is_digit a).
    + destruct (take_digits l) as [ds' r'] eqn:E.
      inversion H; subst. rewrite (IH ds' eq_refl). reflexivity.
    + inversion H; subst. reflexivity.
Qed.

Lemma match_secs_app (s tail : list ascii) (g : list ascii * list ascii) :
  match_secs s = Some g ->
  match_secs (s ++ tail) = Some g
  /\ match_mins_secs s = None
  /\ match_mins_secs (s ++ tail) = None.
Proof.
  unfold match_secs, match_mins_secs.
  destruct (take_digits s) as [ds r] eqn:E.
  destruct ds as [|d ds]; [discriminate|].
  destruct r as [|c r]; [discriminate|].
  rewrite (@take_digits_app _ tail _ _ _ E).
  intro H.
  destruct (Ascii.eqb c "."%char) eqn:Ec.
  - apply Ascii.eqb_eq in Ec. subst c.
    destruct (take_digits r) as [fs r'] eqn:E'.
    destruct fs as [|f fs]; [discriminate|].
    destruct r' as [|c' r']; [discriminate|].
    rewrite (@take_digits_app _ tail _ _ _ E').
    split; [exact H|]. split; reflexivity.
  - destruct (Ascii.eqb c "S"%char) eqn:Es.
    + apply Ascii.eqb_eq in Es. subst c.
      split; [exact H|]. split; reflexivity.
    + exfalso. apply Ascii.eqb_neq in Ec. apply Ascii.eqb_neq in Es.
      destruct c as [[] [] [] [] [] [] [] []]; try discriminate;
        congruence.
Qed.

Lemma match_mins_secs_app (s tail : list ascii)
  (g : list ascii * (list ascii * list ascii)) :
  match_mins_secs s = Some g -> match_mins_secs (s ++ tail) = Some g.
Proof.
  unfold match_mins_secs.
  destruct (take_digits s) as [ms r] eqn:E.
  destruct ms as [|m ms]; [discriminate|].
  destruct r as [|c r]; [discriminate|].
  rewrite (@take_digits_app _ tail _ _ _ E).
  destruct (Ascii.eqb c "M"%char) eqn:Ec.
  - apply Ascii.eqb_eq in Ec. subst c.
    destruct (match_secs r) as [g2|] eqn:E2; [|discriminate].
    rewrite (proj1 (@match_secs_app _ tail _ E2)). auto.
  - apply Ascii.eqb_neq in Ec. intro H. exfalso.
    destruct c as [[] [] [] [] [] [] [] []]; try discriminate; congruence.
Qed.

Lemma list_ascii_of_string_app (s t : string) :
  list_ascii_of_string (s ++ t)%string
  = list_ascii_of_string s ++ list_ascii_of_string t.
Proof.
  induction s as [|c s IH]; cbn; [reflexivity|]. rewrite IH. reflexivity.
Qed.

Lemma re_match_starts_with_PT (l : list ascii) (A : Type) (k : list ascii -> option A) :
  match l with
  | "P"%char :: "T"%char :: r => k r
  | _ => None
  end <> None ->
  exists r, l = "P"%char :: "T"%char :: r.
Proof.
  intro H.
  destruct l as [|p l]; [contradiction|].
  destruct l as [|t r].
  - exfalso. apply H.
    destruct p as [[] [] [] [] [] [] [] []]; reflexivity.
  - destruct (Ascii.eqb p "P"%char) eqn:Ep.
    + apply Ascii.eqb_eq in Ep. subst p.
      destruct (Ascii.eqb t "T"%char) eqn:Et.
      * apply Ascii.eqb_eq in Et. subst t. exists r. reflexivity.
      * exfalso. apply H. apply Ascii.eqb_neq in Et.
        destruct t as [[] [] [] [] [] [] [] []]; try reflexivity; congruence.
    + exfalso. apply H. apply Ascii.eqb_neq in Ep.
      destruct p as [[] [] [] [] [] [] [] []]; try reflexivity; congruence.
Qed.

(** X3.  [parse_duration] matches at the start of the string only: once a
    string matches the duration pattern, any text appended to it leaves
    the decoded value unchanged. *)
Theorem parse_duration_ignores_trailing_text :
  forall (dur_str tail : string) g,
    re_match dur_str = Some g ->
    parse_duration (dur_str ++ tail)%string = parse_duration dur_str.
Proof.
  intros s tail g Hm. unfold parse_duration.
  assert (Hsame : re_match (s ++ tail)%string = re_match s).
  { unfold re_match in *. rewrite list_ascii_of_string_app.
    destruct (@re_match_starts_with_PT (list_ascii_of_string s) _
                (fun r => match match_mins_secs r with
                          | Some (ms, g2) => Some (Some ms, g2)
                          | None => match match_secs r with
                                    | Some g2 => Some (None, g2)
                                    | None => None
                                    end
                          end)) as [r Hr].
    { rewrite Hm. discriminate. }
    rewrite Hr in *. cbn [app].
    destruct (match_mins_secs r) as [[ms g2]|] eqn:E1.
    - rewrite (@match_mins_secs_app _ (list_ascii_of_string tail) _ E1).
      reflexivity.
    - destruct (match_secs r) as [g2|] eqn:E2; [|discriminate].
      destruct (@match_secs_app _ (list_ascii_of_string tail) _ E2)
        as (H1 & _ & H3).
      rewrite H3, H1. reflexivity. }
  rewrite Hsame. reflexivity.
Qed.

Lemma parse_duration_ignores_trailing_text_witness :
  re_match "PT2S" = Some (None, (["2"%char], []))
  /\ parse_duration ("PT2S" ++ "</TimeSpan>")%string = parse_duration "PT2S".
Proof.
  split; [reflexivity|].
  apply (parse_duration_ignores_trailing_text
           "PT2S" "</TimeSpan>" (g := (None, (["2"%char], [])))).
  reflexivity.
Defined.

Unset Implicit Arguments.

(** ** The gap test and the free span *)

(** X4.  The gap test can only fail more often when the margin grows or
    intervals are added: a time point that is a gap for the margin [th']
    and the occupied list [ex'] is a gap for every smaller margin and
    every list whose intervals all occur in [ex'].  In particular a gap
    under the default margin 0.5 s of [add_beat_synced_effects.py] is a
    gap under the 0.3 s the script passes. *)
Theorem is_gap_antitone :
  forall (t th th' : Q) (ex ex' : list interval),
    (forall x, In x ex -> In x ex') -> th <= th' ->
    is_gap t ex' th' = true -> is_gap t ex th = true.
Proof.
  intros t th th' ex ex' Hsub Hth H.
  rewrite is_gap_true in *. intros s e Hin [H1 H2].
  apply (H s e (Hsub _ Hin)). split; lra.
Qed.

Lemma is_gap_antitone_witness :
  3 # 10 <= 1 # 2
  /\ is_gap 2 [(0, 1); (3, 4)] (1 # 2) = true
  /\ is_gap 2 [(3, 4)] (3 # 10) = true.
Proof.
  split; [discriminate|]. split; [reflexivity|].
  apply (@is_gap_antitone 2 (3 # 10) (1 # 2) [(3, 4)] [(0, 1); (3, 4)]).
  - intros x [<-|[]]. right. left. reflexivity.
  - discriminate.
  - reflexivity.
Defined.

Lemma gap_end_le (t : Q) (ex : list interval) :
  forall end0, BeatSynced.gap_end t end0 ex <= end0.
Proof.
  induction ex as [|[s e] ex IH]; intro end0; simpl; [lra|].
  destruct (Qlt_bool t s && Qlt_bool s end0) eqn:E; [|apply IH].
  apply andb_true_iff in E. destruct E as [_ E2].
  apply Qlt_bool_iff in E2. specialize (IH (s - (1 # 10))). lra.
Qed.

Lemma gap_end_below_start (t : Q) (ex : list interval) :
  forall end0 s e, In (s, e) ex -> t < s ->
    BeatSynced.gap_end t end0 ex <= s.
Proof.
  induction ex as [|[s0 e0] ex IH]; intros end0 s e Hin Hts; [destruct Hin|].
  simpl. destruct Hin as [Heq|Hin].
  - inversion Heq; subst s0 e0.
    destruct (Qlt_bool t s && Qlt_bool s end0) eqn:E.
    + pose proof (gap_end_le t ex (s - (1 # 10))). lra.
    + apply andb_false_iff in E. destruct E as [E|E].
      * apply Qlt_bool_false in E. lra.
      * apply Qlt_bool_false in E. pose proof (gap_end_le t ex end0). lra.
  - destruct (Qlt_bool t s0 && Qlt_bool s0 end0); eapply IH; eauto.
Qed.

(** X5.  [find_gap_duration] never returns more than [max_duration], and
    an effect of the returned duration starting at the time point ends no
    later than any occupied interval that starts after the time point
    begins. *)
Theorem find_gap_duration_stops_at_next_start :
  forall (t : Q) (ex : list interval) (max_duration : Q),
    BeatSynced.find_gap_duration t ex max_duration <= max_duration
    /\ (forall s e, In (s, e) ex -> t < s ->
          t + BeatSynced.find_gap_duration t ex max_duration <= s).
Proof.
  intros t ex mx. unfold BeatSynced.find_gap_duration.
  split.
  - pymin_split (BeatSynced.gap_end t (t + mx) ex - t) mx; lra.
  - intros s e Hin Hts.
    pose proof (@gap_end_below_start t ex (t + mx) s e Hin Hts).
    pymin_split (BeatSynced.gap_end t (t + mx) ex - t) mx; lra.
Qed.

(** ** The whole free-running pass *)

Lemma place_kind (gap : Q) (r : Tape) :
  kind_span_ok (snd (fst (fst (BeatSynced.place gap r))))
               (fst (fst (fst (BeatSynced.place gap r)))).
Proof.
  unfold BeatSynced.place.
  destruct (Qle_bool 5 gap) eqn:E5.
  - apply Qle_bool_iff in E5.
    assert (H : 5 <= pymin gap 8 /\ pymin gap 8 <= 8)
      by (pymin_split gap 8; lra).
    destruct (choice r Spiral [Butterfly; Twinkle]) as [k r1].
    destruct k;
      try destruct (sample r1 COLORS 3);
      try destruct (choice r1 1%nat [2; 3; 4; 5]%nat);
      cbn [fst snd kind_span_ok]; destruct H; try split; lra.
  - apply Qle_bool_false in E5.
    destruct (Qle_bool (5 # 2) gap) eqn:E2.
    + apply Qle_bool_iff in E2.
      assert (H : 5 # 2 <= pymin gap 5 /\ pymin gap 5 < 5)
        by (pymin_split gap 5; lra).
      destruct (choice r Wipe [Twinkle; Butterfly]) as [k r1].
      destruct k;
        try destruct (choice r1 0%nat [1; 2; 3]%nat);
        cbn [fst snd kind_span_ok]; destruct H; try split; lra.
    + apply Qle_bool_false in E2. cbn [fst snd kind_span_ok].
      pymin_split gap 2; lra.
Qed.

Lemma synced_body_full (drum_beats : list Q) (existing : list interval)
  (st : BeatSynced.state) (beat_time : Q) :
  nth_error (BeatSynced.beats_in_gaps drum_beats existing) (BeatSynced.i st)
  = Some beat_time ->
  exists st' e,
    BeatSynced.body drum_beats existing st = Ret st'
    /\ BeatSynced.new_effects st' = BeatSynced.new_effects st ++ [e]
    /\ BeatSynced.color_idx st' = (BeatSynced.color_idx st + 1)%nat
    /\ BeatSynced.i st'
       = BeatSynced.skip_covered (beat_time + time_span e)
           (skipn (BeatSynced.i st)
              (BeatSynced.beats_in_gaps drum_beats existing))
           (BeatSynced.i st)
    /\ start_time e = beat_time
    /\ time_span e
       = pymin (BeatSynced.find_gap_duration beat_time existing 10)
               (cap_of (BeatSynced.find_gap_duration beat_time existing 10))
    /\ color e = nth (BeatSynced.color_idx st mod length COLORS) COLORS Red
    /\ kind_span_ok (effect_type e) (time_span e).
Proof.
  intro Hbt. unfold BeatSynced.body. rewrite Hbt.
  pose proof (place_kind (BeatSynced.find_gap_duration beat_time existing 10)
                (BeatSynced.rng st)) as Hk.
  pose proof (place_duration (BeatSynced.find_gap_duration beat_time existing 10)
                (BeatSynced.rng st)) as Hd.
  destruct (uuid4 (BeatSynced.entropy st)) as [eid ent'].
  destruct (BeatSynced.place (BeatSynced.find_gap_duration beat_time existing 10)
              (BeatSynced.rng st)) as [[[d k] v] r'].
  cbn [fst snd] in Hk, Hd.
  eexists. eexists. split; [reflexivity|]. cbn.
  split; [reflexivity|]. split; [reflexivity|]. split; [reflexivity|].
  split; [reflexivity|]. split; [exact Hd|]. split; [reflexivity|exact Hk].
Qed.

Lemma round_robin_snoc (out : list Effect) (e : Effect) :
  round_robin out ->
  color e = nth (length out mod length COLORS) COLORS Red ->
  round_robin (out ++ [e]).
Proof.
  intros Hrr He j e' Hj.
  assert (Hjlen : (j < length (out ++ [e]))%nat)
    by (apply nth_error_Some; congruence).
  rewrite length_app in Hjlen. simpl in Hjlen.
  destruct (Nat.lt_ge_cases j (length out)) as [Hlt|Hge].
  - rewrite nth_error_app1 in Hj by lia. apply Hrr. exact Hj.
  - rewrite nth_error_app2 in Hj by lia.
    replace (j - length out)%nat with 0%nat in Hj by lia.
    simpl in Hj. inversion Hj; subst e'.
    replace j with (length out) by lia. exact He.
Qed.

Lemma abutting_snoc (out : list Effect) (e : Effect) :
  abutting out ->
  (forall e', In e' out -> start_time e' + time_span e' <= start_time e) ->
  abutting (out ++ [e]).
Proof.
  intros Hab Hnew j k ej ek Hjk Hj Hk.
  assert (Hklen : (k < length (out ++ [e]))%nat)
    by (apply nth_error_Some; congruence).
  rewrite length_app in Hklen. simpl in Hklen.
  rewrite nth_error_app1 in Hj by lia.
  destruct (Nat.lt_ge_cases k (length out)) as [Hlt|Hge].
  - rewrite nth_error_app1 in Hk by lia. apply (Hab j k); assumption.
  - rewrite nth_error_app2 in Hk by lia.
    replace (k - length out)%nat with 0%nat in Hk by lia.
    simpl in Hk. inversion Hk; subst.
    apply Hnew. eapply nth_error_In; eauto.
Qed.

Lemma synced_books_step (drum_beats : list Q) (existing : list interval) :
  well_formed existing ->
  forall st,
    synced_books drum_beats existing st ->
    (BeatSynced.i st
     < length (BeatSynced.beats_in_gaps drum_beats existing))%nat ->
    exists st',
      BeatSynced.body drum_beats existing st = Ret st'
      /\ synced_books drum_beats existing st'
      /\ (BeatSynced.i st < BeatSynced.i st')%nat.
Proof.
  intros Hwf st (Hok & Hcol & Hrr & Hcnt & Hcur & Hord) Hlt.
  destruct (nth_error (BeatSynced.beats_in_gaps drum_beats existing)
              (BeatSynced.i st)) as [bt|] eqn:Hbt.
  2:{ apply nth_error_None in Hbt. lia. }
  destruct (synced_body_full drum_beats existing st bt Hbt)
    as (st' & e & Hb & Hnew & Hcol' & Hi' & Hs & Hd & Hc & Hk).
  assert (Hgap : is_gap bt existing (3 # 10) = true)
    by (eapply beats_in_gaps_is_gap; eauto).
  assert (Hspan : 2 # 10 < time_span e).
  { rewrite Hd. apply capped_lower. apply find_gap_duration_lower; auto. }
  assert (Hadv : (BeatSynced.i st < BeatSynced.i st')%nat).
  { rewrite Hi'. apply synced_cursor_moves; [exact Hbt|lra]. }
  exists st'. split; [exact Hb|]. split; [|exact Hadv].
  split; [|split; [|split; [|split; [|split]]]].
  - intros e' He'. rewrite Hnew in He'. apply in_app_or in He'.
    destruct He' as [He'|[<-|[]]]; [auto|].
    rewrite Hs. split; [exact Hgap|]. split; [|split].
    + apply nth_error_In in Hbt. unfold BeatSynced.beats_in_gaps in Hbt.
      apply filter_In in Hbt. tauto.
    + exact Hd.
    + exact Hk.
  - rewrite Hcol', Hnew, length_app, Hcol. simpl. reflexivity.
  - rewrite Hnew. apply round_robin_snoc; [exact Hrr|].
    rewrite <- Hcol. exact Hc.
  - rewrite Hnew, length_app. simpl. lia.
  - rewrite Hi'.
    pose proof (skip_covered_spec (bt + time_span e)
                  (skipn (BeatSynced.i st)
                     (BeatSynced.beats_in_gaps drum_beats existing))
                  (BeatSynced.i st)) as (Hr & _).
    rewrite length_skipn in Hr. lia.
  - intro Hinc. destruct (Hord Hinc) as [Hab Hpast].
    split.
    + rewrite Hnew. apply abutting_snoc; [exact Hab|].
      intros e' He'. rewrite Hs.
      apply (Hpast e' (BeatSynced.i st) bt He'); [lia|exact Hbt].
    + intros e' j x He' Hj Hx. rewrite Hnew in He'. apply in_app_or in He'.
      destruct He' as [He'|[<-|[]]].
      * apply (Hpast e' j x He'); [lia|exact Hx].
      * pose proof (@synced_cursor_after_placement drum_beats existing st st' e
                      Hinc Hlt Hb Hnew j x ltac:(lia) Hx) as [_ Hiff].
        destruct (Qlt_le_dec x (start_time e + time_span e)) as [Hxlt|Hxge];
          [|exact Hxge].
        specialize (Hiff Hxlt). lia.
Qed.



Lemma synced_books_init (drum_beats : list Q) (existing : list interval)
  (r ent : Tape) :
  synced_books drum_beats existing (BeatSynced.init r ent).
Proof.
  split; [intros e []|]. split; [reflexivity|].
  split; [intros j e Hj; destruct j; discriminate|].
  split; [simpl; lia|]. split; [simpl; lia|].
  intros _. split.
  - intros j k ej ek _ Hj. destruct j; discriminate.
  - intros e j x [].
Qed.

Lemma synced_books_iterate (drum_beats : list Q) (existing : list interval) :
  well_formed existing ->
  forall n st,
    synced_books drum_beats existing st ->
    exists st',
      BeatSynced.iterate drum_beats existing n st = Ret st'
      /\ synced_books drum_beats existing st'.
Proof.
  intros Hwf. induction n as [|n IH]; intros st Hinv; simpl.
  - exists st. split; [reflexivity|exact Hinv].
  - destruct (Nat.leb_spec
                (length (BeatSynced.beats_in_gaps drum_beats existing))
                (BeatSynced.i st)) as [Hdone|Hlt].
    + exists st. split; [reflexivity|exact Hinv].
    + destruct (synced_books_step drum_beats existing Hwf st Hinv Hlt)
        as (st1 & Hb & Hinv1 & _).
      rewrite Hb. apply IH. exact Hinv1.
Qed.

(** X7.  With strictly increasing drum beats, the effects the free-running
    pass has placed after any number of iterations follow one another on
    the timeline: each ends no later than every later one starts. *)
Theorem free_running_effects_follow_one_another :
  forall (matches : list (string * string)) (drum_beats : list Q)
         (rng entropy : Tape) (n : nat),
    increasing drum_beats = true ->
    exists st,
      BeatSynced.iterate drum_beats (load_existing matches) n
        (BeatSynced.init rng entropy) = Ret st
      /\ abutting (BeatSynced.new_effects st).
Proof.
  intros matches drum_beats rng entropy n Hinc.
  destruct (synced_books_iterate drum_beats (load_existing matches)
              (load_existing_well_formed matches) n
              (BeatSynced.init rng entropy)
              (synced_books_init drum_beats (load_existing matches)
                 rng entropy))
    as (st & Hs & _ & _ & _ & _ & _ & Hord).
  exists st. split; [exact Hs|]. apply (Hord Hinc).
Qed.

Lemma free_running_effects_follow_one_another_witness :
  increasing [0; 1; 9] = true
  /\ exists st,
       BeatSynced.iterate [0; 1; 9] (load_existing []) 2
         (BeatSynced.init tape0 tape0) = Ret st
       /\ abutting (BeatSynced.new_effects st).
Proof.
  split; [reflexivity|].
  exact (free_running_effects_follow_one_another [] [0; 1; 9] tape0 tape0 2
           eq_refl).
Defined.


(** ** Bookkeeping of the pass of [add_beatnet_effects.py] *)

Lemma Permutation_insert_sorted (x : interval) (l : list interval) :
  Permutation (insert_sorted x l) (x :: l).
Proof.
  induction l as [|y l IH]; simpl; [reflexivity|].
  destruct (tuple_lt x y); [reflexivity|].
  rewrite IH. apply perm_swap.
Qed.

Lemma Permutation_sort (l : list interval) : Permutation (sort l) l.
Proof.
  unfold sort.
  assert (H : forall acc,
             Permutation (fold_left (fun a x => insert_sorted x a) l acc)
                         (acc ++ l)).
  { induction l as [|x l IH]; intro acc; simpl.
    - rewrite app_nil_r. reflexivity.
    - rewrite IH, Permutation_insert_sorted.
      simpl. apply Permutation_middle. }
  rewrite H. reflexivity.
Qed.

Lemma occupied_by_snoc (out : list Effect) (ends : list Q) (e : Effect) (t : Q) :
  length out = length ends ->
  occupied_by (out ++ [e]) (ends ++ [t])
  = occupied_by out ends ++ [(start_time e, t)].
Proof.
  unfold occupied_by. revert ends.
  induction out as [|a out IH]; intros [|b ends] Hlen; try discriminate;
    simpl; [reflexivity|].
  rewrite IH by (simpl in Hlen; lia). reflexivity.
Qed.

Lemma beatnet_books_step (beats downbeats : list Q) (existing0 : list interval) :
  forall st,
    beatnet_books beats existing0 st ->
    (Beatnet.i st < length beats)%nat ->
    exists st',
      Beatnet.body beats downbeats st = Ret st'
      /\ beatnet_books beats existing0 st'
      /\ (Beatnet.i st < Beatnet.i st')%nat.
Proof.
  intros st (Hcol & Hrr & Hcnt & Hcur & ends & Hends & Hperm) Hlt.
  destruct (nth_error beats (Beatnet.i st)) as [bt|] eqn:Hbt.
  2:{ apply nth_error_None in Hbt. lia. }
  destruct (@body_cases beats downbeats st bt Hbt)
    as [Hskip|(st' & end_idx & end_time & e & Hb & Hpl & Hs & Hd & Hc & _
               & _ & Hwin & _)].
  - exists (skipped st). split; [exact Hskip|]. split; [|simpl; lia].
    split; [exact Hcol|]. split; [exact Hrr|].
    split; [simpl; lia|]. split; [simpl; lia|].
    exists ends. split; assumption.
  - exists st'. split; [exact Hb|].
    destruct Hpl as (Hi' & Hcol' & Hex' & Hnew').
    destruct Hwin as (Hw1 & Hw2 & Hw3).
    split; [|lia].
    split; [rewrite Hcol', Hnew', length_app, Hcol; reflexivity|].
    split; [rewrite Hnew'; apply round_robin_snoc;
            [exact Hrr|rewrite <- Hcol; exact Hc]|].
    split; [rewrite Hnew', length_app; simpl; lia|].
    split; [lia|].
    exists (ends ++ [end_time]). split.
    + rewrite Hnew'. apply Forall2_app; [exact Hends|].
      constructor; [|constructor]. rewrite Hs. exact Hd.
    + rewrite Hex', Hnew'.
      rewrite occupied_by_snoc by (eapply Forall2_length; eauto).
      rewrite Permutation_sort, Hperm, app_assoc. reflexivity.
Qed.

Lemma beatnet_books_hold (beats downbeats : list Q)
  (existing0 : list interval) (r ent : Tape) :
  exists st,
    Beatnet.schedule beats downbeats existing0 r ent = Some (Ret st)
    /\ beatnet_books beats existing0 st.
Proof.
  destruct (@beatnet_loop_inv beats downbeats (beatnet_books beats existing0)
              (beatnet_books_step beats downbeats existing0)
              (length beats) (Beatnet.init existing0 r ent))
    as (st & Hl & Hinv & _).
  - split; [reflexivity|].
    split; [intros j e Hj; destruct j; discriminate|].
    split; [simpl; lia|]. split; [simpl; lia|].
    exists []. split; [constructor|].
    cbn. rewrite app_nil_r. reflexivity.
  - simpl; lia.
  - exists st. split; assumption.
Qed.

Lemma palette_neighbours_differ (j : nat) :
  nth (j mod length COLORS) COLORS Red
  <> nth (S j mod length COLORS) COLORS Red.
Proof.
  change (length COLORS) with 8%nat.
  replace (S j) with (j + 1)%nat by lia.
  rewrite <- (Nat.Div0.add_mod_idemp_l j 1 8).
  pose proof (Nat.mod_upper_bound j 8 ltac:(lia)) as Hm.
  set (m := (j mod 8)%nat) in *.
  do 8 (destruct m as [|m]; [cbn; discriminate|]). lia.
Qed.

Lemma data_colors_rotate (out : list Effect) :
  round_robin out ->
  (forall j e, nth_error out j = Some e -> effect_type e <> Spiral ->
     data_colors e = [nth (j mod length COLORS) COLORS Red])
  /\ (forall j e e',
        nth_error out j = Some e -> nth_error out (S j) = Some e' ->
        effect_type e <> Spiral -> effect_type e' <> Spiral ->
        data_colors e <> data_colors e').
Proof.
  intro Hrr.
  assert (H : forall j e, nth_error out j = Some e -> effect_type e <> Spiral ->
                data_colors e = [nth (j mod length COLORS) COLORS Red]).
  { intros j e Hj Hk. unfold data_colors. rewrite <- (Hrr j e Hj).
    destruct (effect_type e); [reflexivity..|contradiction|reflexivity];
      reflexivity. }
  split; [exact H|].
  intros j e e' Hj Hj' Hk Hk'.
  rewrite (H j e Hj Hk), (H (S j) e' Hj' Hk').
  intro Heq. inversion Heq as [Hc].
  exact (palette_neighbours_differ j Hc).
Qed.

(** X9.  The pass of [add_beatnet_effects.py] and the free-running pass
    step through the eight-entry palette with every effect they place: an
    effect at position [j] of the output that is not a Spiral has its data
    made with palette entry [j mod 8], so of two consecutive effects that
    are not Spirals the data never have the same colour.  (The data of a
    Spiral is made with three sampled colours.)  For the free-running pass
    this holds of the effects placed after any number of iterations. *)
Theorem data_colours_rotate_through_palette :
  forall (beats downbeats : list Q) (existing : list interval)
         (matches : list (string * string)) (rng entropy : Tape) (n : nat),
    (exists st,
        Beatnet.schedule beats downbeats existing rng entropy = Some (Ret st)
        /\ (forall j e,
              nth_error (Beatnet.new_effects st) j = Some e ->
              effect_type e <> Spiral ->
              data_colors e = [nth (j mod length COLORS) COLORS Red])
        /\ forall j e e',
             nth_error (Beatnet.new_effects st) j = Some e ->
             nth_error (Beatnet.new_effects st) (S j) = Some e' ->
             effect_type e <> Spiral -> effect_type e' <> Spiral ->
             data_colors e <> data_colors e')
    /\ (exists st,
           BeatSynced.iterate beats (load_existing matches) n
             (BeatSynced.init rng entropy) = Ret st
           /\ (forall j e,
                 nth_error (BeatSynced.new_effects st) j = Some e ->
                 effect_type e <> Spiral ->
                 data_colors e = [nth (j mod length COLORS) COLORS Red])
           /\ forall j e e',
                nth_error (BeatSynced.new_effects st) j = Some e ->
                nth_error (BeatSynced.new_effects st) (S j) = Some e' ->
                effect_type e <> Spiral -> effect_type e' <> Spiral ->
                data_colors e <> data_colors e').
Proof.
  intros beats downbeats existing matches rng entropy n. split.
  - destruct (beatnet_books_hold beats downbeats existing rng entropy)
      as (st & Hs & _ & Hrr & _).
    exists st. split; [exact Hs|]. apply data_colors_rotate. exact Hrr.
  - destruct (synced_books_iterate beats (load_existing matches)
                (load_existing_well_formed matches) n
                (BeatSynced.init rng entropy)
                (synced_books_init beats (load_existing matches) rng entropy))
      as (st & Hs & _ & _ & Hrr & _).
    exists st. split; [exact Hs|]. apply data_colors_rotate. exact Hrr.
Qed.

(** X11.  The occupied list of [add_beatnet_effects.py] only grows: when
    the pass returns it is a rearrangement of the pre-existing intervals
    together with one interval per emitted effect, from the effect's start
    to an end time whose distance from the start is the effect's time
    span. *)
Theorem occupied_list_gains_one_interval_per_effect :
  forall (beats downbeats : list Q) (existing : list interval)
         (rng entropy : Tape),
    exists st ends,
      Beatnet.schedule beats downbeats existing rng entropy = Some (Ret st)
      /\ Forall2 (fun e t => time_span e = t - start_time e)
           (Beatnet.new_effects st) ends
      /\ Permutation (Beatnet.existing_effects st)
           (existing ++ occupied_by (Beatnet.new_effects st) ends)
      /\ length (Beatnet.existing_effects st)
         = (length existing + length (Beatnet.new_effects st))%nat.
Proof.
  intros beats downbeats existing rng entropy.
  destruct (beatnet_books_hold beats downbeats existing rng entropy)
    as (st & Hs & _ & _ & _ & _ & ends & Hends & Hperm).
  exists st, ends. split; [exact Hs|]. split; [exact Hends|].
  split; [exact Hperm|].
  rewrite (Permutation_length Hperm), length_app. f_equal.
  unfold occupied_by, interval.
  rewrite length_combine, length_map, <- (Forall2_length Hends).
  apply Nat.min_id.
Qed.

(** ** A second pass over the output of the first *)

Lemma overlaps_superset (t : Q) (ex ex' : list interval) :
  (forall x, In x ex -> In x ex') ->
  overlaps t ex = true -> overlaps t ex' = true.
Proof.
  intros Hsub H. rewrite overlaps_true in *.
  destruct H as (s & e & Hin & H). exists s, e. split; [auto|exact H].
Qed.

Lemma scan_none_superset (t0 : Q) (beats : list Q) (ex ex' : list interval)
  (mn mx : Q) (idxs : list nat) :
  (forall x, In x ex -> In x ex') ->
  scan_end_beats t0 beats ex mn mx idxs = Ret None ->
  scan_end_beats t0 beats ex' mn mx idxs = Ret None.
Proof.
  intros Hsub. induction idxs as [|k idxs IH]; simpl; [auto|].
  destruct (nth_error beats k) as [t|]; [|discriminate].
  destruct (Qlt_bool (t - t0) mn); [exact IH|].
  destruct (Qlt_bool mx (t - t0)); [auto|].
  destruct (overlaps t ex) eqn:E; [|discriminate].
  rewrite (overlaps_superset t ex ex' Hsub E). exact IH.
Qed.

Lemma no_placement_superset (beats downbeats : list Q)
  (ex ex' : list interval) (j : nat) :
  (forall x, In x ex -> In x ex') ->
  no_placement_at beats downbeats ex j ->
  no_placement_at beats downbeats ex' j.
Proof.
  intros Hsub H bt Hbt. destruct (H bt Hbt) as [Hgap|Hnone].
  - left. destruct (is_gap bt ex' (3 # 10)) eqn:E; [|reflexivity].
    rewrite (is_gap_subset bt (3 # 10) ex ex' Hsub E) in Hgap. discriminate.
  - right. unfold Beatnet.find_end_beat in *. rewrite Hbt in *.
    eapply scan_none_superset; eauto.
Qed.

Lemma no_placement_inside (beats downbeats : list Q) (ex : list interval)
  (j : nat) (s e : Q) :
  In (s, e) ex ->
  (forall x, nth_error beats j = Some x -> s <= x /\ x <= e) ->
  no_placement_at beats downbeats ex j.
Proof.
  intros Hin Hx bt Hbt. left.
  destruct (is_gap bt ex (3 # 10)) eqn:E; [|reflexivity].
  rewrite is_gap_true in E. exfalso. apply (E s e Hin).
  destruct (Hx bt Hbt). split; lra.
Qed.

(** An iteration either places nothing, for one of the two reasons of
    [no_placement_at], or places an effect between two beats. *)
Lemma body_skip_or_place (beats downbeats : list Q) (st : Beatnet.state)
  (bt : Q) :
  nth_error beats (Beatnet.i st) = Some bt ->
  (no_placement_at beats downbeats (Beatnet.existing_effects st) (Beatnet.i st)
   /\ Beatnet.body beats downbeats st = Ret (skipped st))
  \/ exists st' end_idx end_time,
       Beatnet.body beats downbeats st = Ret st'
       /\ Beatnet.i st' = (end_idx + 1)%nat
       /\ Beatnet.existing_effects st'
          = sort (Beatnet.existing_effects st ++ [(bt, end_time)])
       /\ Beatnet.new_effects st' <> Beatnet.new_effects st
       /\ in_window (Beatnet.i st) beats end_idx
       /\ nth_error beats end_idx = Some end_time.
Proof.
  intro Hbt. unfold Beatnet.body. rewrite Hbt.
  destruct (is_gap bt (Beatnet.existing_effects st) (3 # 10)) eqn:Egap;
    cbn [negb].
  2:{ left. split; [|reflexivity]. intros bt' Hbt'.
      rewrite Hbt in Hbt'. inversion Hbt'; subst bt'. left. exact Egap. }
  assert (Hmn : min_of (mem bt downbeats)
                = snd (fst (Beatnet.tier (mem bt downbeats)))) by reflexivity.
  assert (Hmx : max_of (mem bt downbeats)
                = fst (fst (Beatnet.tier (mem bt downbeats)))) by reflexivity.
  destruct (Beatnet.tier (mem bt downbeats)) as [[mx mn] [c0 cs]].
  cbn [fst snd] in Hmn, Hmx.
  destruct (Beatnet.find_end_beat (Beatnet.i st) beats
              (Beatnet.existing_effects st) mn mx) as [[[[k t] d]|]|] eqn:Ef.
  - right.
    unfold Beatnet.find_end_beat in Ef. rewrite Hbt in Ef.
    destruct (scan_lookahead_spec bt beats (Beatnet.existing_effects st) mn mx
                (Beatnet.i st)) as [r [Hr Hspec]].
    rewrite Hr in Ef. inversion Ef; subst r. simpl in Hspec.
    destruct Hspec as (Hk & Hn & _).
    destruct (uuid4 (Beatnet.entropy st)) as [eid ent'].
    destruct (choice (Beatnet.rng st) c0 cs) as [et rng1].
    destruct (Beatnet.draw_variant et rng1) as [v rng2].
    eexists. exists k, t. split; [reflexivity|]. cbn.
    split; [reflexivity|]. split; [reflexivity|].
    split; [intro H; symmetry in H; exact (@snoc_not_same _ _ _ H)|].
    split; [unfold in_window; lia|exact Hn].
  - left. split; [|reflexivity]. intros bt' Hbt'.
    rewrite Hbt in Hbt'. inversion Hbt'; subst bt'. right.
    rewrite Hmn, Hmx. exact Ef.
  - exfalso.
    unfold Beatnet.find_end_beat in Ef. rewrite Hbt in Ef.
    destruct (scan_lookahead_spec bt beats (Beatnet.existing_effects st) mn mx
                (Beatnet.i st)) as [r [Hr _]].
    rewrite Hr in Ef. discriminate.
Qed.

Lemma body_skips_without_placement (beats downbeats : list Q)
  (st : Beatnet.state) :
  (Beatnet.i st < length beats)%nat ->
  no_placement_at beats downbeats (Beatnet.existing_effects st) (Beatnet.i st) ->
  Beatnet.body beats downbeats st = Ret (skipped st).
Proof.
  intros Hlt Hno.
  destruct (nth_error beats (Beatnet.i st)) as [bt|] eqn:Hbt.
  2:{ apply nth_error_None in Hbt. lia. }
  unfold Beatnet.body. rewrite Hbt.
  destruct (Hno bt Hbt) as [Hgap|Hnone].
  - rewrite Hgap. reflexivity.
  - destruct (is_gap bt (Beatnet.existing_effects st) (3 # 10)); cbn [negb];
      [|reflexivity].
    unfold min_of, max_of in Hnone.
    destruct (Beatnet.tier (mem bt downbeats)) as [[mx mn] [c0 cs]].
    cbn [fst snd] in Hnone. rewrite Hnone. reflexivity.
Qed.

Lemma first_pass_leaves_no_placement (beats downbeats : list Q)
  (existing : list interval) (r ent : Tape) :
  increasing beats = true ->
  exists st,
    Beatnet.schedule beats downbeats existing r ent = Some (Ret st)
    /\ forall j, (j < length beats)%nat ->
         no_placement_at beats downbeats (Beatnet.existing_effects st) j.
Proof.
  intro Hinc.
  destruct (@beatnet_loop_inv beats downbeats
              (fun st => forall j, (j < Beatnet.i st)%nat ->
                 no_placement_at beats downbeats (Beatnet.existing_effects st) j))
    with (fuel := length beats) (st := Beatnet.init existing r ent)
    as (st & Hl & Hinv & Hdone).
  - intros st Hinv Hlt.
    destruct (nth_error beats (Beatnet.i st)) as [bt|] eqn:Hbt.
    2:{ apply nth_error_None in Hbt. lia. }
    destruct (body_skip_or_place beats downbeats st bt Hbt)
      as [[Hno Hb]|(st' & end_idx & end_time & Hb & Hi' & Hex' & _ & Hwin & Hn)].
    + exists (skipped st). split; [exact Hb|]. split; [|simpl; lia].
      intros j Hj. simpl in Hj. simpl.
      destruct (Nat.eq_dec j (Beatnet.i st)) as [->|Hne]; [exact Hno|].
      apply Hinv. lia.
    + exists st'. split; [exact Hb|].
      destruct Hwin as (Hw1 & Hw2 & Hw3).
      split; [|lia].
      assert (Hsub : forall x, In x (Beatnet.existing_effects st) ->
                               In x (Beatnet.existing_effects st')).
      { intros x Hx. rewrite Hex'. apply In_sort. apply in_or_app. auto. }
      intros j Hj.
      destruct (Nat.lt_ge_cases j (Beatnet.i st)) as [Hold|Hin].
      * eapply no_placement_superset; [exact Hsub|]. apply Hinv. exact Hold.
      * apply no_placement_inside with (s := bt) (e := end_time).
        -- rewrite Hex'. apply In_sort. apply in_or_app. right. left.
           reflexivity.
        -- intros x Hx. split.
           ++ apply (@increasing_nth_le beats Hinc (Beatnet.i st) j); auto.
           ++ apply (@increasing_nth_le beats Hinc j end_idx); auto. lia.
  - intros j Hj. simpl in Hj. lia.
  - simpl. lia.
  - exists st. split; [exact Hl|]. intros j Hj. apply Hinv. lia.
Qed.

(** X10.  With strictly increasing beats, running the pass of
    [add_beatnet_effects.py] again on the occupied list its first run
    leaves behind adds nothing: the second run returns an empty list of
    new effects, whatever the random draws of either run. *)
Theorem second_pass_adds_nothing :
  forall (beats downbeats : list Q) (existing : list interval)
         (rng entropy rng' entropy' : Tape),
    increasing beats = true ->
    exists st1 st2,
      Beatnet.schedule beats downbeats existing rng entropy = Some (Ret st1)
      /\ Beatnet.schedule beats downbeats (Beatnet.existing_effects st1)
           rng' entropy' = Some (Ret st2)
      /\ Beatnet.new_effects st2 = [].
Proof.
  intros beats downbeats existing rng entropy rng' entropy' Hinc.
  destruct (first_pass_leaves_no_placement beats downbeats existing rng entropy
              Hinc) as (st1 & Hs1 & Hno).
  destruct (@beatnet_loop_inv beats downbeats
              (fun st => Beatnet.existing_effects st = Beatnet.existing_effects st1
                         /\ Beatnet.new_effects st = []))
    with (fuel := length beats)
         (st := Beatnet.init (Beatnet.existing_effects st1) rng' entropy')
    as (st2 & Hl & [_ Hempty] & _).
  - intros st [Hex Hnew] Hlt.
    exists (skipped st). split.
    + apply body_skips_without_placement; [exact Hlt|].
      rewrite Hex. apply Hno. exact Hlt.
    + split; [split; assumption|simpl; lia].
  - split; reflexivity.
  - simpl. lia.
  - exists st1, st2. split; [exact Hs1|]. split; [exact Hl|exact Hempty].
Qed.

Lemma second_pass_adds_nothing_witness :
  increasing [0; 1; 2; 3] = true
  /\ exists st1 st2,
       Beatnet.schedule [0; 1; 2; 3] [2] [] tape0 tape0 = Some (Ret st1)
       /\ Beatnet.schedule [0; 1; 2; 3] [2] (Beatnet.existing_effects st1)
            tape1 tape1 = Some (Ret st2)
       /\ Beatnet.new_effects st2 = [].
Proof.
  split; [reflexivity|].
  exact (second_pass_adds_nothing [0; 1; 2; 3] [2] [] tape0 tape0 tape1 tape1
           eq_refl).
Defined.

(** ** How many effects a pass can emit *)

(** X12.  Every effect of a beat-quantized pass uses up at least two
    beats, so neither beat-quantized script emits more than half as many
    effects as there are beats. *)
Theorem effect_count_is_bounded_by_beats :
  forall (beats downbeats strong_beats : list Q) (existing : list interval)
         (rng entropy : Tape),
    (exists st,
        Beatnet.schedule beats downbeats existing rng entropy = Some (Ret st)
        /\ (2 * length (Beatnet.new_effects st) <= length beats)%nat)
    /\ (exists st,
           Waveform.schedule beats downbeats strong_beats existing rng
           = Some (Ret st)
           /\ (2 * length (Waveform.effects_to_add st) <= length beats)%nat).
Proof.
  intros beats downbeats strong_beats existing rng entropy.
  split.
  - destruct (beatnet_books_hold beats downbeats existing rng entropy)
      as (st & Hs & _ & _ & Hcnt & Hcur & _).
    exists st. split; [exact Hs|lia].
  - destruct (@waveform_loop_inv beats downbeats strong_beats existing
                (fun st => (2 * length (Waveform.effects_to_add st)
                            <= Waveform.beat_idx st <= length beats)%nat))
      with (fuel := length beats) (st := Waveform.init rng)
      as (st & Hl & Hinv & _).
    + intros st Hinv Hlt.
      destruct (nth_error beats (Waveform.beat_idx st)) as [bt|] eqn:Hbt.
      2:{ apply nth_error_None in Hbt. lia. }
      destruct (@waveform_body_cases beats downbeats strong_beats existing st bt
                  Hbt)
        as [Hskip|(st' & end_idx & p & Hb & Hi' & Hnew' & _ & Hwin & _)].
      * exists (wskipped st). split; [exact Hskip|]. simpl. lia.
      * exists st'. split; [exact Hb|].
        destruct Hwin as (Hw1 & Hw2 & Hw3).
        rewrite Hnew', length_app, Hi'. simpl. lia.
    + simpl. lia.
    + simpl. lia.
    + exists st. split; [exact Hl|lia].
Qed.

(** ** Order of the beat-quantized output *)

(** X14.  With strictly increasing beats, both beat-quantized passes
    return their effects in strictly increasing order of start time. *)
Theorem beat_quantized_output_is_in_start_order :
  forall (beats downbeats strong_beats : list Q) (existing : list interval)
         (rng entropy : Tape),
    increasing beats = true ->
    (exists st,
        Beatnet.schedule beats downbeats existing rng entropy = Some (Ret st)
        /\ forall j k ej ek, (j < k)%nat ->
             nth_error (Beatnet.new_effects st) j = Some ej ->
             nth_error (Beatnet.new_effects st) k = Some ek ->
             start_time ej < start_time ek)
    /\ (exists st,
           Waveform.schedule beats downbeats strong_beats existing rng
           = Some (Ret st)
           /\ forall j k pj pk, (j < k)%nat ->
                nth_error (Waveform.effects_to_add st) j = Some pj ->
                nth_error (Waveform.effects_to_add st) k = Some pk ->
                Waveform.start_time pj < Waveform.start_time pk).
Proof.
  intros beats downbeats strong_beats existing rng entropy Hinc. split.
  - destruct (beatnet_schedule_inv beats downbeats existing rng entropy)
      as (st & Hs & _ & Hok & Hsep).
    exists st. split; [exact Hs|]. intros j k ej ek Hjk Hj Hk.
    pose proof (Hsep Hinc j k ej ek Hjk Hj Hk) as Hlt.
    destruct (Hok ej (nth_error_In _ _ Hj))
      as (si & ei & t & _ & _ & _ & _ & _ & _ & _ & Hmin & _).
    pose proof (min_of_pos (mem (start_time ej) downbeats)). lra.
  - destruct (waveform_schedule_inv beats downbeats strong_beats existing rng)
      as (st & Hs & Hok & Hseq).
    exists st. split; [exact Hs|]. intros j k pj pk Hjk Hj Hk.
    pose proof (Hseq Hinc j k pj pk Hjk Hj Hk) as Hlt.
    destruct (Hok pj (nth_error_In _ _ Hj))
      as (si & ei & _ & _ & _ & _ & _ & _ & _ & (Hmin & _) & _).
    destruct (waveform_window_in_policy (Waveform.is_downbeat pj)
                (Waveform.is_strong pj)) as (Hpol & _).
    destruct (Waveform.is_downbeat pj), (Waveform.is_strong pj);
      cbn in Hpol, Hmin; lra.
Qed.

Lemma beat_quantized_output_is_in_start_order_witness :
  increasing [0; 1; 2; 3] = true
  /\ exists st,
       Beatnet.schedule [0; 1; 2; 3] [] [] tape0 tape0 = Some (Ret st)
       /\ forall j k ej ek, (j < k)%nat ->
            nth_error (Beatnet.new_effects st) j = Some ej ->
            nth_error (Beatnet.new_effects st) k = Some ek ->
            start_time ej < start_time ek.
Proof.
  split; [reflexivity|].
  exact (proj1 (beat_quantized_output_is_in_start_order
                  [0; 1; 2; 3] [] [] [] tape0 tape0 eq_refl)).
Defined.

(** ** The end beat against a larger occupied list *)

(** X15.  Occupying more of the timeline never gives [find_end_beat] an
    earlier end: when every interval of [ex] occurs in [ex'], a start beat
    with no end beat under [ex] has none under [ex'], and an end beat
    found under [ex'] has an index at least that of the one found under
    [ex]. *)
Theorem more_occupied_never_earlier_end :
  forall (beats : list Q) (ex ex' : list interval) (start_beat_idx : nat)
         (min_dur max_dur : Q),
    (forall x, In x ex -> In x ex') ->
    (Beatnet.find_end_beat start_beat_idx beats ex min_dur max_dur = Ret None ->
     Beatnet.find_end_beat start_beat_idx beats ex' min_dur max_dur = Ret None)
    /\ (forall k t d k' t' d',
          Beatnet.find_end_beat start_beat_idx beats ex min_dur max_dur
          = Ret (Some (k, t, d)) ->
          Beatnet.find_end_beat start_beat_idx beats ex' min_dur max_dur
          = Ret (Some (k', t', d')) ->
          (k <= k')%nat).
Proof.
  intros beats ex ex' s mn mx Hsub. unfold Beatnet.find_end_beat.
  destruct (nth_error beats s) as [t0|]; [|split; intros; discriminate].
  split; [apply scan_none_superset; exact Hsub|].
  intros k t d k' t' d' H H'.
  destruct (scan_lookahead_spec t0 beats ex mn mx s) as [r [Hr Hspec]].
  destruct (scan_lookahead_spec t0 beats ex' mn mx s) as [r' [Hr' Hspec']].
  rewrite Hr in H. rewrite Hr' in H'.
  inversion H; subst r. inversion H'; subst r'.
  simpl in Hspec, Hspec'.
  destruct Hspec as (_ & _ & _ & _ & Hrej).
  destruct Hspec' as (Hk' & Hn' & _ & (Hmin' & _ & Hov') & _).
  destruct (Nat.le_gt_cases k k') as [Hle|Hgt]; [exact Hle|].
  exfalso.
  destruct (Hrej k' t' ltac:(lia) Hn') as [Hshort|[_ Hov]].
  - lra.
  - rewrite (overlaps_superset t' ex ex' Hsub Hov) in Hov'. discriminate.
Qed.

Lemma more_occupied_never_earlier_end_witness :
  (forall x : interval, In x [] -> In x [(1, 1)])
  /\ (Beatnet.find_end_beat 0 [0; 1] [] (2) 5 = Ret None ->
      Beatnet.find_end_beat 0 [0; 1] [(1, 1)] (2) 5 = Ret None).
Proof.
  split; [intros x []|].
  exact (proj1 (more_occupied_never_earlier_end [0; 1] [] [(1, 1)] 0%nat 2 5
                  (fun x (H : In x []) => match H with end))).
Defined.

(** ** The decoded timeline *)

(** X16.  When the start and span strings of the timeline are plain (at
    most 300 ASCII characters each), the decoded occupied list has one
    interval per match, and every interval starts at a non-negative time
    and ends no earlier than it starts. *)
Theorem decoded_intervals_are_well_formed :
  forall matches : list (string * string),
    plain_matches matches = true ->
    length (load_existing matches) = length matches
    /\ forall s e, In (s, e) (load_existing matches) -> 0 <= s /\ s <= e.
Proof.
  intros matches _. split.
  - unfold load_existing.
    rewrite (Permutation_length (Permutation_sort _)). apply length_map.
  - intros s e Hin. unfold load_existing in Hin.
    apply (proj1 (In_sort _ _)) in Hin. apply in_map_iff in Hin.
    destruct Hin as ([a b] & Heq & _). cbn [fst snd] in Heq.
    inversion Heq; subst.
    pose proof (parse_duration_nonneg a). pose proof (parse_duration_nonneg b).
    split; lra.
Qed.

Lemma decoded_intervals_are_well_formed_witness :
  plain_matches [("PT1S", "PT2.5S"); ("PT1M3S", "oops")]%string = true
  /\ length (load_existing [("PT1S", "PT2.5S"); ("PT1M3S", "oops")]%string)
     = 2%nat.
Proof.
  split; [reflexivity|].
  exact (proj1 (decoded_intervals_are_well_formed
                  [("PT1S", "PT2.5S"); ("PT1M3S", "oops")]%string eq_refl)).
Defined.

(** ** An effect without length *)




